(** * Transcript post-processing of the MP3 transcription service

    A shallow embedding of
    [backend/services/patient_docs_s3/Patient Transcriptions/mp3_to_transcript.py]:
    the methods [_process_transcript], [_calculate_avg_confidence] and
    [_wait_for_transcription_job] of [MP3Transcriber].

    Modelling conventions.
    - A JSON object read with [d.get(k, default)] has an optional field [k];
      a field read with [d[k]] is optional too, and reading it when it is
      missing raises [KeyError].
    - Python exceptions are values of [exn]; fallible code lives in the
      [result] monad.
    - Start and end times are dictionary keys that the code only compares for
      equality; AWS Transcribe serialises them as decimal strings, so they are
      [string]s here.
    - Python floats are IEEE 754 binary64 numbers, values of [spec_float].
      [float(x)] is defined on the JSON values [x] can be: a real, an integer
      (rounded to the nearest float, [OverflowError] beyond the range of a
      float), a boolean, a string that spells a float, a string that does not
      ([ValueError]), and null, arrays and objects ([TypeError]).
    - The quotient [sum(values) / len(values)] is kept as the term
      [SumOverLen values]: how [sum] adds floats depends on the version of
      Python (compensated summation since 3.12), and no property of the
      rounded value is derived here.
    - Logging is omitted. *)

From Stdlib Require Import QArith DecimalString SpecFloat.
From stdpp Require Import gmap strings list fin_maps.


(** ** Exceptions and the result monad *)

Inductive exn :=
| KeyError (key : string)
| ValueError (msg : string)
| OverflowError (msg : string)
| TypeError (msg : string)
| TranscriptionError (msg : string).

Inductive result (A : Type) :=
| Ok (a : A)
| Raise (e : exn).
Arguments Ok {A} a.
Arguments Raise {A} e.

#[global] Instance result_ret : MRet result := fun A a => Ok a.
#[global] Instance result_bind : MBind result := fun A B f c =>
  match c with
  | Ok a => f a
  | Raise e => Raise e
  end.

(** [str(e)]: KeyError prints the repr of its key. *)
Definition str_exn (e : exn) : string :=
  match e with
  | KeyError key => "'" +:+ key +:+ "'"
  | ValueError msg => msg
  | OverflowError msg => msg
  | TypeError msg => msg
  | TranscriptionError msg => msg
  end.

(** [d[key]] on an object whose field [key] may be missing. *)
Definition getitem {A} (key : string) (field : option A) : result A :=
  match field with
  | Some a => Ok a
  | None => Raise (KeyError key)
  end.

(** A [for] loop whose body may raise: the state is threaded through the
    iterations, and the first exception aborts the loop. *)
Fixpoint for_each {A S} (body : S -> A -> result S) (l : list A) (s : S)
  : result S :=
  match l with
  | [] => Ok s
  | x :: l' => s' ← body s x; for_each body l' s'
  end.

(** ** Scalars and [float] *)

(** A Python float: an IEEE 754 binary64 number. *)
Definition float64 : Type := spec_float.

Definition prec : Z := 53.
Definition emax : Z := 1024.

(** The float nearest to an integer (ties to even); an infinity when the
    integer lies beyond the range of a float. *)
Definition float_of_int (n : Z) : float64 := binary_normalize prec emax n 0 false.

(** A JSON value at a place where the code expects a number.
    - [JFloat x]: a JSON real, which [json.load] reads as the float [x];
    - [JInt n]: a JSON integer, read as the int [n];
    - [JBool b]: [true] or [false];
    - [JNumeral x]: a string that [float] accepts, [x] being the float it
      spells (["0.98"], ["1e3"], ["nan"], ["inf"]);
    - [JText msg]: a string that [float] rejects, [msg] being the message of
      its [ValueError];
    - [JOther msg]: null, an array or an object, [msg] being the message of
      the [TypeError] that [float] raises on it. *)
Inductive Scalar :=
| JFloat (x : float64)
| JInt (n : Z)
| JBool (b : bool)
| JNumeral (x : float64)
| JText (msg : string)
| JOther (msg : string).

Definition float (x : Scalar) : result float64 :=
  match x with
  | JFloat x => Ok x
  | JInt n =>
      match float_of_int n with
      | S754_infinity _ => Raise (OverflowError "int too large to convert to float")
      | x => Ok x
      end
  | JBool b => Ok (float_of_int (if b then 1 else 0))
  | JNumeral x => Ok x
  | JText msg => Raise (ValueError msg)
  | JOther msg => Raise (TypeError msg)
  end.

(** ** The raw AWS Transcribe payload *)

Record Alternative := {
  content : option string;
  alt_confidence : option Scalar
}.

Record Item := {
  type : option string;
  start_time : option string;
  alternatives : option (list Alternative)
}.

(** An entry of a segment's [items] list. *)
Record SegmentItem := {
  seg_start_time : option string;
  seg_end_time : option string
}.

Record Segment := {
  speaker_label : option string;
  seg_items : option (list SegmentItem)
}.

Record SpeakerLabels := {
  segments : option (list Segment)
}.

Record TranscriptChunk := {
  chunk_transcript : option string
}.

Record Results := {
  transcripts : option (list TranscriptChunk);
  items : option (list Item);
  speaker_labels : option SpeakerLabels;
  audio_duration : option Scalar;
  language_code : option string
}.

Record TranscriptData := {
  results : option Results;
  jobName : option string;
  status : option string
}.

(** The empty objects [{}] used as [get] defaults. *)
Definition empty_results : Results :=
  {| transcripts := None; items := None; speaker_labels := None;
     audio_duration := None; language_code := None |}.

Definition empty_speaker_labels : SpeakerLabels := {| segments := None |}.

(** ** The processed transcript *)

(** A value of [word_speaker_map]. *)
Record SpeakerEntry := {
  entry_speaker : string;
  entry_end_time : string
}.

(** An element of [conversation]. *)
Record Turn := {
  speaker : string;
  text : string
}.

(** The value of [metadata.confidence]: the literal [0.0], or the quotient
    [sum(confidence_values) / len(confidence_values)] of a non-empty list of
    floats, in binary64 arithmetic. *)
Inductive Average :=
| Literal (x : float64)
| SumOverLen (confidence_values : list float64).

Record Metadata := {
  duration_seconds : float64;
  language : string;
  confidence : Average;
  job_name : string;
  job_status : string;
  speakers_identified : nat
}.

Record Processed := {
  transcript : string;
  conversation : option (list Turn);
  metadata : Metadata
}.

(** ** [_calculate_avg_confidence] *)

Definition is_pronunciation (item : Item) : bool :=
  match type item with
  | Some t => String.eqb t "pronunciation"
  | None => false
  end.

(** One iteration of the loop over [items]; [confidence_values] is the
    accumulator list. *)
Definition confidence_step (confidence_values : list float64) (item : Item)
  : result (list float64) :=
  if is_pronunciation item then
    match default [] (alternatives item) with
    | a :: _ =>
        match alt_confidence a with
        | Some c => v ← float c; mret (confidence_values ++ [v])
        | None => mret confidence_values
        end
    | [] => mret confidence_values
    end
  else mret confidence_values.

Definition _calculate_avg_confidence (items : list Item) : result Average :=
  confidence_values ← for_each confidence_step items [];
  mret (match confidence_values with
        | [] => Literal (S754_zero false)
        | _ :: _ => SumOverLen confidence_values
        end).

(** ** [_process_transcript] *)

(** The body of the inner loop that fills [word_speaker_map].  The right-hand
    side of the assignment is evaluated before the key. *)
Definition word_speaker_map_step (segment : Segment)
    (word_speaker_map : gmap string SpeakerEntry) (item : SegmentItem)
  : result (gmap string SpeakerEntry) :=
  spk ← getitem "speaker_label" (speaker_label segment);
  e ← getitem "end_time" (seg_end_time item);
  s ← getitem "start_time" (seg_start_time item);
  mret (<[s := {| entry_speaker := spk; entry_end_time := e |}]> word_speaker_map).

Definition word_speaker_map_segment
    (word_speaker_map : gmap string SpeakerEntry) (segment : Segment)
  : result (gmap string SpeakerEntry) :=
  for_each (word_speaker_map_step segment)
           (default [] (seg_items segment)) word_speaker_map.

Definition build_word_speaker_map (speaker_labels : list Segment)
  : result (gmap string SpeakerEntry) :=
  for_each word_speaker_map_segment speaker_labels ∅.

(** The three variables the walk over [items] mutates. *)
Record Walk := {
  walk_conversation : list Turn;
  current_speaker : option string;
  current_text : list string
}.

Definition join (sep : string) (l : list string) : string := String.concat sep l.

(** [start_time in word_speaker_map], with [start_time = item.get('start_time')]:
    a missing start time is [None], which is no key of the map. *)
Definition lookup_start (word_speaker_map : gmap string SpeakerEntry)
    (item : Item) : option SpeakerEntry :=
  match start_time item with
  | Some t => word_speaker_map !! t
  | None => None
  end.

(** [speaker != current_speaker and current_speaker is not None and current_text] *)
Definition speaker_changed (spk : string) (w : Walk) : bool :=
  match current_speaker w with
  | Some cur =>
      negb (String.eqb spk cur) &&
      match current_text w with [] => false | _ :: _ => true end
  | None => false
  end.

Definition walk_step (word_speaker_map : gmap string SpeakerEntry)
    (w : Walk) (item : Item) : Walk :=
  if negb (is_pronunciation item) then w
  else
    let w1 :=
      match lookup_start word_speaker_map item with
      | Some entry =>
          let spk := entry_speaker entry in
          let w' :=
            if speaker_changed spk w then
              match current_speaker w with
              | Some cur =>
                  {| walk_conversation :=
                       walk_conversation w ++
                       [{| speaker := cur; text := join " " (current_text w) |}];
                     current_speaker := current_speaker w;
                     current_text := [] |}
              | None => w
              end
            else w in
          {| walk_conversation := walk_conversation w';
             current_speaker := Some spk;
             current_text := current_text w' |}
      | None => w
      end in
    match default [] (alternatives item) with
    | a :: _ =>
        {| walk_conversation := walk_conversation w1;
           current_speaker := current_speaker w1;
           current_text := current_text w1 ++ [default "" (content a)] |}
    | [] => w1
    end.

Definition walk_init : Walk :=
  {| walk_conversation := []; current_speaker := None; current_text := [] |}.

(** Truthiness of [current_speaker and current_text]: a speaker that is
    neither [None] nor the empty string, and a non-empty buffer. *)
Definition last_segment_pending (w : Walk) : bool :=
  match current_speaker w, current_text w with
  | Some cur, _ :: _ => negb (String.eqb cur "")
  | _, _ => false
  end.

(** "Add the last segment". *)
Definition walk_finish (w : Walk) : list Turn :=
  if last_segment_pending w then
    walk_conversation w ++
    [{| speaker := default "" (current_speaker w);
        text := join " " (current_text w) |}]
  else walk_conversation w.

Definition build_conversation (word_speaker_map : gmap string SpeakerEntry)
    (items : list Item) : list Turn :=
  walk_finish (fold_left (walk_step word_speaker_map) items walk_init).

Definition newline : string := String (Ascii.ascii_of_nat 10) EmptyString.

Definition format_turn (segment : Turn) : string :=
  let speaker_label :=
    if String.eqb (speaker segment) "spk_0" then "Doctor" else "Patient" in
  speaker_label +:+ ": " +:+ text segment.

(** [len(set(seg['speaker_label'] for seg in speaker_labels))] *)
Definition count_speakers (speaker_labels : list Segment) : result nat :=
  labels ← for_each (fun acc seg =>
                        l ← getitem "speaker_label" (speaker_label seg);
                        mret (acc ++ [l])) speaker_labels [];
  mret (size (list_to_set labels : gset string)).

Definition is_empty {A} (l : list A) : bool :=
  match l with [] => true | _ :: _ => false end.

(** [transcript_data.get('results', {})] *)
Definition get_results (transcript_data : TranscriptData) : Results :=
  default empty_results (results transcript_data).

(** The body of the [try] block. *)
Definition process_body (transcript_data : TranscriptData) : result Processed :=
  let results := get_results transcript_data in
  let transcripts := default [] (transcripts results) in
  let full_transcript :=
    join " " (map (fun t => default "" (chunk_transcript t)) transcripts) in
  let items := default [] (items results) in
  let speaker_labels :=
    default [] (segments (default empty_speaker_labels (speaker_labels results))) in
  '(formatted_text, conversation) ←
    (if is_empty speaker_labels then mret (full_transcript, None)
     else
       word_speaker_map ← build_word_speaker_map speaker_labels;
       let conversation := build_conversation word_speaker_map items in
       let formatted_transcript := map format_turn conversation in
       mret (join newline formatted_transcript, Some conversation));
  duration ← float (default (JInt 0) (audio_duration results));
  conf ← _calculate_avg_confidence items;
  spk ← (if is_empty speaker_labels then mret 0%nat
         else count_speakers speaker_labels);
  mret {| transcript := formatted_text;
          conversation := conversation;
          metadata :=
            {| duration_seconds := duration;
               language :=
                 default "en-US" (language_code (get_results transcript_data));
               confidence := conf;
               job_name := default "" (jobName transcript_data);
               job_status := default "" (status transcript_data);
               speakers_identified := spk |} |}.

(** [except Exception as e: raise TranscriptionError(...)] *)
Definition _process_transcript (transcript_data : TranscriptData)
  : result Processed :=
  match process_body transcript_data with
  | Ok r => Ok r
  | Raise e =>
      Raise (TranscriptionError ("Failed to process transcript: " +:+ str_exn e))
  end.

(** ** [_wait_for_transcription_job] *)

(** What the loop reads of [response['TranscriptionJob']]. *)
Record TranscriptionJob := {
  TranscriptionJobStatus : string;
  FailureReason : option string
}.

(** One call of [get_transcription_job]: a response, or a [ClientError]. *)
Inductive JobReply :=
| Response (job : TranscriptionJob)
| ClientError (msg : string).

(** The observable actions of the polling loop. *)
Inductive Event :=
| GetTranscriptionJob
| Sleep (seconds : Z).

(** [time.sleep(d)] followed by the rest of the run; a negative [d] raises
    [ValueError] before anything is waited. *)
Definition sleep_then {A} (d : Z) (rest : result A * list Event)
  : result A * list Event :=
  if (d <? 0)%Z then (Raise (ValueError "sleep length must be non-negative"), [])
  else (rest.1, Sleep d :: rest.2).

(** The [for retry in range(max_retries)] loop, from iteration [retry] on,
    with [remaining] iterations left; [replies n] is the outcome of the
    [n]-th call of [get_transcription_job] (counting from 0).  The result is
    the value returned or exception raised, with the trace of actions. *)
Fixpoint wait_loop (job_name : string) (replies : nat -> JobReply)
    (retry_delay : Z) (remaining retry : nat)
  : result TranscriptionJob * list Event :=
  match remaining with
  | O =>
      (Raise (TranscriptionError
                ("Transcription job " +:+ job_name +:+
                 " did not complete within the allowed time")), [])
  | S remaining' =>
      let '(r, trace) :=
        match replies retry with
        | ClientError msg =>
            (Raise (TranscriptionError
                      ("Error checking transcription job: " +:+ msg)), [])
        | Response job =>
            let status := TranscriptionJobStatus job in
            if String.eqb status "COMPLETED" then (Ok job, [])
            else if String.eqb status "FAILED" then
              let failure_reason := default "Unknown reason" (FailureReason job) in
              (Raise (TranscriptionError
                        ("Transcription job failed: " +:+ failure_reason)), [])
            else if String.eqb status "IN_PROGRESS" then
              sleep_then retry_delay
                (wait_loop job_name replies retry_delay remaining' (S retry))
            else
              sleep_then retry_delay
                (wait_loop job_name replies retry_delay remaining' (S retry))
        end in
      (r, GetTranscriptionJob :: trace)
  end.

(** [range(n)] is empty for a negative [n]. *)
Definition _wait_for_transcription_job (max_retries retry_delay : Z)
    (job_name : string) (replies : nat -> JobReply)
  : result TranscriptionJob * list Event :=
  wait_loop job_name replies retry_delay (Z.to_nat max_retries) 0.

(** ** Vocabulary of the specification *)

(** [results.items] and [results.speaker_labels.segments], with the defaults
    of the [get] calls. *)
Definition items_of (transcript_data : TranscriptData) : list Item :=
  default [] (items (get_results transcript_data)).

Definition segments_of (transcript_data : TranscriptData) : list Segment :=
  default []
    (segments (default empty_speaker_labels
                 (speaker_labels (get_results transcript_data)))).

Definition transcripts_of (transcript_data : TranscriptData)
  : list TranscriptChunk :=
  default [] (transcripts (get_results transcript_data)).

(** The best-alternative content of an item. *)
Definition best_text (item : Item) : string :=
  match default [] (alternatives item) with
  | a :: _ => default "" (content a)
  | [] => ""
  end.

(** The text the specification describes for [transcript]: the best text of
    every item, joined by single spaces. *)
Definition items_text (items : list Item) : string :=
  join " " (map best_text items).

(** A pronunciation item that has a best alternative. *)
Definition spoken (item : Item) : bool :=
  is_pronunciation item && negb (is_empty (default [] (alternatives item))).

(** The start times that the entries of a segment claim. *)
Definition starts (its : list SegmentItem) : list string :=
  omap seg_start_time its.

(** Every start time that some segment claims. *)
Definition segment_start_times (speaker_labels : list Segment) : list string :=
  flat_map (fun seg => starts (default [] (seg_items seg))) speaker_labels.

(** The lookup maps [t] to the label of [seg]. *)
Definition owned_by (t : string) (seg : Segment)
    (m : gmap string SpeakerEntry) : Prop :=
  exists e, m !! t = Some e /\ speaker_label seg = Some (entry_speaker e).

(** The item's start time is a start-time entry of some segment. *)
Definition claimed (speaker_labels : list Segment) (item : Item) : Prop :=
  exists t, start_time item = Some t /\ In t (segment_start_times speaker_labels).

(** The confidence carried by an item: the one of the first alternative of
    a pronunciation item. *)
Definition carried_confidence (item : Item) : option Scalar :=
  if is_pronunciation item then
    match default [] (alternatives item) with
    | a :: _ => alt_confidence a
    | [] => None
    end
  else None.

(** The integer is within the range of a float: the float nearest to it is
    no infinity. *)
Definition in_float_range (n : Z) : bool :=
  match float_of_int n with
  | S754_infinity _ => false
  | _ => true
  end.

(** The float a JSON value stands for, if it stands for one. *)
Definition numeric_value (x : Scalar) : option float64 :=
  match x with
  | JFloat v => Some v
  | JInt n => if in_float_range n then Some (float_of_int n) else None
  | JBool true => Some (float_of_int 1)
  | JBool false => Some (float_of_int 0)
  | JNumeral v => Some v
  | JText _ => None
  | JOther _ => None
  end.

(** The confidence values that enter the average, in item order. *)
Definition confidences_of (items : list Item) : list float64 :=
  omap (fun it => carried_confidence it ≫= numeric_value) items.

(** The payload is shaped as in the data model: every segment has its
    speaker label, every segment entry its start and end time, and the
    duration and the confidences are numeric, that is, absent or standing
    for a float. *)
Definition present {A} (o : option A) : bool :=
  match o with Some _ => true | None => false end.

Definition numeric (o : option Scalar) : bool :=
  match o with
  | Some x => present (numeric_value x)
  | None => true
  end.

(** A JSON number, or a string that spells one, whatever its size. *)
Definition is_number (o : option Scalar) : bool :=
  match o with
  | Some (JFloat _) | Some (JInt _) | Some (JNumeral _) | None => true
  | Some (JBool _) | Some (JText _) | Some (JOther _) => false
  end.

Definition well_typed_segment (seg : Segment) : bool :=
  present (speaker_label seg) &&
  forallb (fun it => present (seg_start_time it) && present (seg_end_time it))
          (default [] (seg_items seg)).

Definition well_typed_item (item : Item) : bool :=
  forallb (fun a => numeric (alt_confidence a)) (default [] (alternatives item)).

Definition well_typed (transcript_data : TranscriptData) : bool :=
  forallb well_typed_segment (segments_of transcript_data) &&
  forallb well_typed_item (items_of transcript_data) &&
  numeric (audio_duration (get_results transcript_data)).

(** The same shape, asking of the duration and the confidences only that
    they are numbers. *)
Definition number_typed (transcript_data : TranscriptData) : bool :=
  forallb well_typed_segment (segments_of transcript_data) &&
  forallb (fun item => forallb (fun a => is_number (alt_confidence a))
                               (default [] (alternatives item)))
          (items_of transcript_data) &&
  is_number (audio_duration (get_results transcript_data)).

(** The shape of a polling trace: [k] rounds of check-then-sleep. *)
Fixpoint rounds (retry_delay : Z) (k : nat) : list Event :=
  match k with
  | O => []
  | S k' => GetTranscriptionJob :: Sleep retry_delay :: rounds retry_delay k'
  end.

Definition is_check (e : Event) : bool :=
  match e with
  | GetTranscriptionJob => true
  | Sleep _ => false
  end.

(** How many times the trace asks for the job status. *)
Definition checks (trace : list Event) : nat :=
  length (List.filter is_check trace).

Definition reports_completed (reply : JobReply) : bool :=
  match reply with
  | Response job => String.eqb (TranscriptionJobStatus job) "COMPLETED"
  | ClientError _ => false
  end.

(** A reply after which the loop sleeps and polls again: a response whose
    status is neither COMPLETED nor FAILED. *)
Definition keeps_waiting (reply : JobReply) : bool :=
  match reply with
  | Response job =>
      negb (String.eqb (TranscriptionJobStatus job) "COMPLETED") &&
      negb (String.eqb (TranscriptionJobStatus job) "FAILED")
  | ClientError _ => false
  end.

Definition is_transcription_error {A} (r : result A) : bool :=
  match r with
  | Raise (TranscriptionError _) => true
  | _ => false
  end.

(** ** The walk over [items], tracking the items behind the words

    The code only keeps the words of the current turn.  To speak about the
    items a turn is made of, [tracked_step] runs the same walk while keeping
    the items themselves; [erase] forgets them again
    (see [walk_step_erase] below). *)

Record Tracked := {
  tracked_turns : list (string * list Item);
  tracked_speaker : option string;
  tracked_buffer : list Item
}.

Definition render (group : string * list Item) : Turn :=
  {| speaker := group.1; text := join " " (map best_text group.2) |}.

Definition erase (g : Tracked) : Walk :=
  {| walk_conversation := map render (tracked_turns g);
     current_speaker := tracked_speaker g;
     current_text := map best_text (tracked_buffer g) |}.

Definition tracked_step (word_speaker_map : gmap string SpeakerEntry)
    (g : Tracked) (item : Item) : Tracked :=
  if negb (is_pronunciation item) then g
  else
    let g1 :=
      match lookup_start word_speaker_map item with
      | Some entry =>
          let spk := entry_speaker entry in
          match tracked_speaker g, tracked_buffer g with
          | Some cur, _ :: _ =>
              if String.eqb spk cur then g
              else {| tracked_turns := tracked_turns g ++ [(cur, tracked_buffer g)];
                      tracked_speaker := Some spk;
                      tracked_buffer := [] |}
          | _, _ => {| tracked_turns := tracked_turns g;
                       tracked_speaker := Some spk;
                       tracked_buffer := tracked_buffer g |}
          end
      | None => g
      end in
    if spoken item then
      {| tracked_turns := tracked_turns g1;
         tracked_speaker := tracked_speaker g1;
         tracked_buffer := tracked_buffer g1 ++ [item] |}
    else g1.

Definition tracked_init : Tracked :=
  {| tracked_turns := []; tracked_speaker := None; tracked_buffer := [] |}.

Definition tracked_finish (g : Tracked) : list (string * list Item) :=
  match tracked_speaker g, tracked_buffer g with
  | Some cur, _ :: _ =>
      if String.eqb cur "" then tracked_turns g
      else tracked_turns g ++ [(cur, tracked_buffer g)]
  | _, _ => tracked_turns g
  end.

Definition tracked_conversation (word_speaker_map : gmap string SpeakerEntry)
    (items : list Item) : list (string * list Item) :=
  tracked_finish (fold_left (tracked_step word_speaker_map) items tracked_init).

(** The speaker an item resolves to in the lookup, if any. *)
Definition resolved_speaker (word_speaker_map : gmap string SpeakerEntry)
    (item : Item) : option string :=
  entry_speaker <$> lookup_start word_speaker_map item.

(** The item's start time is a key of the lookup. *)
Definition resolves (word_speaker_map : gmap string SpeakerEntry)
    (item : Item) : bool :=
  match lookup_start word_speaker_map item with
  | Some _ => true
  | None => false
  end.

(** Every item of [its] that resolves in the lookup resolves to [spk]. *)
Definition agrees (word_speaker_map : gmap string SpeakerEntry) (spk : string)
    (its : list Item) : Prop :=
  Forall (fun it => forall s, resolved_speaker word_speaker_map it = Some s ->
                              s = spk) its.

(** What the walk maintains after the items [seen]. *)
Record walk_inv (word_speaker_map : gmap string SpeakerEntry)
    (seen : list Item) (g : Tracked) : Prop := {
  (** the turns and the buffer hold the spoken items, in order *)
  inv_order :
    concat (map snd (tracked_turns g)) ++ tracked_buffer g
    = List.filter spoken seen;
  (** no turn is empty *)
  inv_nonempty : Forall (fun grp => grp.2 <> []) (tracked_turns g);
  (** a resolved item sits in a turn of its own speaker *)
  inv_turns_agree :
    Forall (fun grp => agrees word_speaker_map grp.1 grp.2) (tracked_turns g);
  inv_buffer_agree :
    match tracked_speaker g with
    | Some cur => agrees word_speaker_map cur (tracked_buffer g)
    | None => Forall (fun it => resolved_speaker word_speaker_map it = None)
                     (tracked_buffer g)
    end;
  (** until a pronunciation item resolves there is no speaker and no turn *)
  inv_no_speaker :
    tracked_speaker g = None ->
    tracked_turns g = []
    /\ Forall (fun it => is_pronunciation it = true ->
                         resolved_speaker word_speaker_map it = None) seen;
  (** the current speaker is the speaker of some resolved item *)
  inv_speaker :
    forall s, tracked_speaker g = Some s ->
              exists it, In it seen /\ is_pronunciation it = true
                         /\ resolved_speaker word_speaker_map it = Some s
}.

(** ** Sample payloads *)

(** The float nearest to a fraction of two integers that are floats
    themselves: the float a decimal numeral such as [0.9] spells. *)
Definition float_of_Q (c : Q) : float64 :=
  SFdiv prec emax (float_of_int (Qnum c)) (float_of_int (Zpos (Qden c))).

(** AWS Transcribe writes a confidence as a string. *)
Definition word (w t : string) (c : Q) : Item :=
  {| type := Some "pronunciation"; start_time := Some t;
     alternatives := Some [{| content := Some w;
                              alt_confidence := Some (JNumeral (float_of_Q c)) |}] |}.

Definition punctuation (w : string) : Item :=
  {| type := Some "punctuation"; start_time := None;
     alternatives := Some [{| content := Some w;
                              alt_confidence := Some (JNumeral (float_of_Q 0)) |}] |}.

Definition segment (label : string) (times : list (string * string)) : Segment :=
  {| speaker_label := Some label;
     seg_items := Some (map (fun p => {| seg_start_time := Some p.1;
                                         seg_end_time := Some p.2 |}) times) |}.

Definition payload (chunks : list string) (its : list Item)
    (segs : option (list Segment)) : TranscriptData :=
  {| results :=
       Some {| transcripts :=
                 Some (map (fun c => {| chunk_transcript := Some c |}) chunks);
               items := Some its;
               speaker_labels :=
                 match segs with
                 | Some l => Some {| segments := Some l |}
                 | None => None
                 end;
               audio_duration := Some (JFloat (float_of_Q 2));
               language_code := Some "en-US" |};
     jobName := Some "transcribe-1-abcdef01";
     status := Some "COMPLETED" |}.

(** "Hello world" with a duration that is an integer beyond the range of a
    float. *)
Definition oversized_duration : TranscriptData :=
  {| results :=
       Some {| transcripts := Some [{| chunk_transcript := Some "Hello world" |}];
               items := Some [word "Hello" "0.0" (9 # 10); word "world" "1.0" (8 # 10)];
               speaker_labels := None;
               audio_duration := Some (JInt (10 ^ 400));
               language_code := Some "en-US" |};
     jobName := Some "transcribe-1-abcdef01";
     status := Some "COMPLETED" |}.

(** "Hello, world." without diarization, as AWS Transcribe reports it. *)
Definition hello_world : TranscriptData :=
  payload ["Hello, world."]
    [word "Hello" "0.0" (9 # 10); punctuation ","; word "world" "1.0" (8 # 10);
     punctuation "."]
    None.

(** Two speakers; every word is claimed by a segment. *)
Definition two_speakers : TranscriptData :=
  payload ["Hi there Hello"]
    [word "Hi" "0.0" 1; word "there" "1.0" 1; word "Hello" "2.0" 1]
    (Some [segment "spk_0" [("0.0", "0.5"); ("1.0", "1.5")];
           segment "spk_1" [("2.0", "2.5")]]).

(** The word "um" at 0.5 is claimed by no segment. *)
Definition um : Item := word "um" "0.5" (1 # 2).

Definition unclaimed_middle : TranscriptData :=
  payload ["Hi um there"]
    [word "Hi" "0.0" 1; um; word "there" "1.0" 1]
    (Some [segment "spk_0" [("0.0", "0.4"); ("1.0", "1.5")]]).

Definition unclaimed_first : TranscriptData :=
  payload ["um Hi"]
    [um; word "Hi" "1.0" 1]
    (Some [segment "spk_0" [("1.0", "1.5")]]).

(** Segments are present, but no word starts where a segment entry does. *)
Definition nothing_claimed : TranscriptData :=
  payload ["Hi there"]
    [word "Hi" "0.0" 1; word "there" "1.0" 1]
    (Some [segment "spk_0" [("0.1", "0.5")]]).

(** A segment that lacks its [speaker_label]. *)
Definition missing_label : TranscriptData :=
  payload ["Hi"] [word "Hi" "0.0" 1]
    (Some [{| speaker_label := None;
              seg_items := Some [{| seg_start_time := Some "0.0";
                                    seg_end_time := Some "0.5" |}] |}]).

(** The only segment is labelled with the empty string. *)
Definition empty_label : TranscriptData :=
  payload ["Hi"] [word "Hi" "0.0" 1] (Some [segment "" [("0.0", "0.5")]]).

(** Two segments claim the start time 1.0. *)
Definition colliding : list Segment :=
  [segment "spk_0" [("0.0", "0.5"); ("1.0", "1.5")];
   segment "spk_1" [("1.0", "1.6")]].

(** A job that is still running at every check. *)
Definition always_in_progress (n : nat) : JobReply :=
  Response {| TranscriptionJobStatus := "IN_PROGRESS"; FailureReason := None |}.

(** A job that completes at the third check. *)
Definition completes_at_third (n : nat) : JobReply :=
  Response {| TranscriptionJobStatus :=
                if (n <? 2)%nat then "IN_PROGRESS" else "COMPLETED";
              FailureReason := None |}.

(** ** The rest of the pipeline

    The remaining methods of [MP3Transcriber] and [lambda_handler] talk to
    S3, to AWS Transcribe and to the local file system.  What these answer is
    given by a [World]: one field for each place where the code calls out,
    giving the outcome of that call for the arguments it receives.  Each of
    these places is reached at most once in a run, except the status check of
    the polling loop, whose outcomes are numbered.  A run yields what the
    function returns or raises, together with the AWS calls it makes, in
    order. *)

(** *** String operations *)

(** [s.split(sep)] for a separator of one character. *)
Fixpoint str_split (sep : Ascii.ascii) (s : string) : list string :=
  match s with
  | EmptyString => [EmptyString]
  | String c s' =>
      if Ascii.eqb c sep then EmptyString :: str_split sep s'
      else
        match str_split sep s' with
        | w :: ws => String c w :: ws
        | [] => [String c EmptyString]
        end
  end.

(** [s[n:]] and [s[:n]]. *)
Fixpoint drop_chars (n : nat) (s : string) : string :=
  match n, s with
  | S n', String _ s' => drop_chars n' s'
  | _, _ => s
  end.

Fixpoint take_chars (n : nat) (s : string) : string :=
  match n, s with
  | S n', String c s' => String c (take_chars n' s')
  | _, _ => EmptyString
  end.

Definition str_startswith (s pre : string) : bool := String.prefix pre s.

(** [s.endswith(suf)]: [s] is [suf], or its tail ends with [suf]. *)
Fixpoint str_endswith (s suf : string) : bool :=
  String.eqb s suf ||
  match s with
  | EmptyString => false
  | String _ s' => str_endswith s' suf
  end.

(** [s.lower()], on the ASCII letters.  Strings are byte strings here; no
    character outside ASCII lowers to one of ['.'], ['m'], ['p'], ['3'], so the
    test [s.lower().endswith('.mp3')] has the same outcome. *)
Definition lower_char (c : Ascii.ascii) : Ascii.ascii :=
  let n := Ascii.nat_of_ascii c in
  if (65 <=? n)%nat && (n <=? 90)%nat then Ascii.ascii_of_nat (n + 32) else c.

Fixpoint str_lower (s : string) : string :=
  match s with
  | EmptyString => EmptyString
  | String c s' => String (lower_char c) (str_lower s')
  end.

Definition slash : Ascii.ascii := Ascii.ascii_of_nat 47.

Fixpoint has_slash (s : string) : bool :=
  match s with
  | EmptyString => false
  | String c s' => Ascii.eqb c slash || has_slash s'
  end.

(** [os.path.basename(p)]: what follows the last ['/'] of [p]. *)
Fixpoint basename (p : string) : string :=
  match p with
  | EmptyString => EmptyString
  | String c p' =>
      if has_slash p' then basename p'
      else if Ascii.eqb c slash then p'
      else p
  end.

(** [str(n)] for an integer. *)
Definition str_int (n : Z) : string := NilZero.string_of_int (Z.to_int n).

(** Truthiness of a string. *)
Definition nonempty_str (s : string) : bool :=
  match s with
  | EmptyString => false
  | String _ _ => true
  end.

(** *** Exceptions and runs *)

(** The exceptions of the pipeline: those of [exn], [ClientError] of
    botocore, [FileNotFoundError], and any other [Exception]. *)
Inductive failure :=
| Known (e : exn)
| ClientFailure (msg : string)
| FileNotFoundError (msg : string)
| OtherException (msg : string).

Definition str_failure (f : failure) : string :=
  match f with
  | Known e => str_exn e
  | ClientFailure msg => msg
  | FileNotFoundError msg => msg
  | OtherException msg => msg
  end.

Inductive completion (A : Type) :=
| Returns (a : A)
| Throws (f : failure).
Arguments Returns {A} a.
Arguments Throws {A} f.

Definition of_result {A} (r : result A) : completion A :=
  match r with
  | Ok a => Returns a
  | Raise e => Throws (Known e)
  end.

(** A value of a request parameter: text, flag, number or nested object. *)
#[warnings="-register-all"]
Inductive Setting :=
| SText (s : string)
| SFlag (b : bool)
| SNumber (n : Z)
| SObject (fields : list (string * Setting)).

(** The calls to AWS. *)
Inductive Call :=
| UploadFile (path bucket key : string)
| StartTranscriptionJob (settings : gmap string Setting)
| Poll (e : Event)
| DownloadFile (bucket key path : string).

Record io (A : Type) := Run {
  completion_of : completion A;
  calls_of : list Call
}.
Arguments Run {A} _ _.
Arguments completion_of {A} _.
Arguments calls_of {A} _.

#[global] Instance io_ret : MRet io := fun A a => Run (Returns a) [].
#[global] Instance io_bind : MBind io := fun A B f c =>
  match completion_of c with
  | Returns a => Run (completion_of (f a)) (calls_of c ++ calls_of (f a))
  | Throws e => Run (Throws e) (calls_of c)
  end.

(** A step that makes no AWS call, and one that makes the call [c]. *)
Definition quiet {A} (r : completion A) : io A := Run r [].
Definition call {A} (c : Call) (r : completion A) : io A := Run r [c].
Definition throw {A} (f : failure) : io A := Run (Throws f) [].

(** [try: c  except ClientError as e: raise TranscriptionError(prefix + str(e))] *)
Definition except_client_error {A} (prefix : string) (c : io A) : io A :=
  match completion_of c with
  | Throws (ClientFailure msg) =>
      Run (Throws (Known (TranscriptionError (prefix +:+ msg)))) (calls_of c)
  | _ => c
  end.

(** [try: c  except Exception as e: raise TranscriptionError(prefix + str(e))] *)
Definition except_exception {A} (prefix : string) (c : io A) : io A :=
  match completion_of c with
  | Throws f =>
      Run (Throws (Known (TranscriptionError (prefix +:+ str_failure f))))
          (calls_of c)
  | Returns _ => c
  end.

(** *** The world *)

(** What [__init__] sets up and the methods read. *)
Record Transcriber := {
  max_retries : Z;
  retry_delay : Z
}.

(** What a run returns: the processed transcript, with the entries that
    [transcribe_s3_file], [transcribe_file] and [lambda_handler] add to it. *)
Record Transcription := {
  processed : Processed;
  md_bucket : string;
  md_key : string;
  md_file_name : option string;
  md_file_path : option string;
  s3_location : option (string * string)
}.

Record World := {
  (** [os.path.exists], as [transcribe_file] and as [_upload_to_s3] see it *)
  path_exists : string -> bool;
  path_exists_at_upload : string -> bool;
  (** [s3_client.upload_file(path, bucket, key)] in [_upload_to_s3] *)
  upload_file : string -> string -> string -> completion unit;
  (** [int(time.time())] and [hashlib.md5(s.encode()).hexdigest()] in
      [_generate_job_name] *)
  time_at_start : Z;
  md5_hexdigest : string -> string;
  (** [transcribe_client.start_transcription_job] on the job settings *)
  start_transcription_job : gmap string Setting -> completion unit;
  (** the [n]-th answer of [get_transcription_job] for a job name *)
  get_transcription_job : string -> nat -> JobReply;
  (** [job_details.get('Transcript', {}).get('TranscriptFileUri')] *)
  transcript_file_uri : TranscriptionJob -> option string;
  (** the temporary file, the download into it, [open] with [json.load], and
      [os.unlink], in [_get_transcript_from_uri] *)
  make_temp_file : completion string;
  download_file : string -> string -> string -> completion unit;
  load_json : string -> completion TranscriptData;
  unlink : string -> completion unit;
  (** in [lambda_handler]: the environment, the constructor, the clock when
      the result is saved, the temporary file with the dumped result, its
      upload and its removal *)
  getenv : string -> option string;
  new_transcriber : completion Transcriber;
  time_at_save : Z;
  dump_result : Transcription -> completion string;
  upload_result : string -> string -> string -> completion unit;
  unlink_result : string -> completion unit
}.

(** *** [_generate_job_name], [_upload_to_s3], [_start_transcription_job] *)

Definition _generate_job_name (w : World) (file_identifier : string) : string :=
  let timestamp := time_at_start w in
  let name_hash := take_chars 8 (md5_hexdigest w file_identifier) in
  "transcribe-" +:+ str_int timestamp +:+ "-" +:+ name_hash.

Definition _upload_to_s3 (w : World) (file_path bucket : string) : io string :=
  if negb (path_exists_at_upload w file_path) then
    throw (FileNotFoundError ("File not found: " +:+ file_path))
  else
    let filename := basename file_path in
    let key := "uploads/" +:+ filename in
    except_client_error "Failed to upload file to S3: "
      (_ ← call (UploadFile file_path bucket key)
                (upload_file w file_path bucket key);
       mret key).

(** The base settings of a job. *)
Definition base_settings (job_name s3_uri : string) : gmap string Setting :=
  {[ "TranscriptionJobName" := SText job_name;
     "Media" := SObject [("MediaFileUri", SText s3_uri)];
     "LanguageCode" := SText "en-US";
     "MediaFormat" := SText "mp3";
     "Settings" := SObject [("ShowSpeakerLabels", SFlag true);
                            ("MaxSpeakerLabels", SNumber 2)] ]}.

(** [job_settings] after [job_settings.update(additional_settings)], which is
    done for a non-empty [additional_settings]. *)
Definition job_settings (job_name s3_uri : string)
    (additional_settings : option (gmap string Setting))
  : gmap string Setting :=
  match additional_settings with
  | Some extra =>
      if (size extra =? 0)%nat then base_settings job_name s3_uri
      else extra ∪ base_settings job_name s3_uri
  | None => base_settings job_name s3_uri
  end.

Definition _start_transcription_job (w : World) (bucket key : string)
    (additional_settings : option (gmap string Setting)) : io string :=
  let job_name := _generate_job_name w (bucket +:+ "/" +:+ key) in
  let s3_uri := "s3://" +:+ bucket +:+ "/" +:+ key in
  let settings := job_settings job_name s3_uri additional_settings in
  except_client_error "Failed to start transcription job: "
    (_ ← call (StartTranscriptionJob settings)
              (start_transcription_job w settings);
     mret job_name).

(** *** [_wait_for_transcription_job] and [_process_transcript] as runs *)

Definition wait_for_job (self : Transcriber) (w : World) (job_name : string)
  : io TranscriptionJob :=
  let run := _wait_for_transcription_job (max_retries self) (retry_delay self)
               job_name (get_transcription_job w job_name) in
  Run (of_result run.1) (map Poll run.2).

(** *** [_get_transcript_from_uri] *)

(** The parsing of the S3 URI into bucket and key. *)
Definition parse_s3_uri (transcript_uri : string) : completion (string * string) :=
  if negb (str_startswith transcript_uri "s3://") then
    Throws (Known (ValueError ("Invalid transcript URI: " +:+ transcript_uri)))
  else
    let uri_parts := str_split slash (drop_chars 5 transcript_uri) in
    match uri_parts with
    | bucket :: rest => Returns (bucket, join "/" rest)
    | [] => Throws (OtherException "list index out of range")
    end.

Definition _get_transcript_from_uri (w : World) (transcript_uri : string)
  : io TranscriptData :=
  except_exception "Failed to retrieve transcript: "
    (bk ← quiet (parse_s3_uri transcript_uri);
     temp_path ← quiet (make_temp_file w);
     _ ← call (DownloadFile bk.1 bk.2 temp_path)
              (download_file w bk.1 bk.2 temp_path);
     transcript_data ← quiet (load_json w temp_path);
     _ ← quiet (unlink w temp_path);
     mret transcript_data).

(** *** [transcribe_s3_file] and [transcribe_file] *)

Definition is_mp3 (name : string) : bool := str_endswith (str_lower name) ".mp3".

Definition transcribe_s3_file (self : Transcriber) (w : World)
    (bucket key : string) (additional_settings : option (gmap string Setting))
  : io Transcription :=
  if negb (nonempty_str bucket) || negb (nonempty_str key) then
    throw (Known (ValueError "Both bucket and key must be provided"))
  else if negb (is_mp3 key) then
    throw (Known (ValueError ("File must be an MP3: " +:+ key)))
  else
    job_name ← _start_transcription_job w bucket key additional_settings;
    job_details ← wait_for_job self w job_name;
    match transcript_file_uri w job_details with
    | Some (String c u) =>
        let transcript_uri := String c u in
        transcript_data ← _get_transcript_from_uri w transcript_uri;
        result ← quiet (of_result (_process_transcript transcript_data));
        mret {| processed := result; md_bucket := bucket; md_key := key;
                md_file_name := None; md_file_path := None;
                s3_location := None |}
    | _ =>
        throw (Known (TranscriptionError "No transcript URI found in job details"))
    end.

Definition transcribe_file (self : Transcriber) (w : World)
    (file_path bucket : string) (additional_settings : option (gmap string Setting))
  : io Transcription :=
  if negb (path_exists w file_path) then
    throw (FileNotFoundError ("File not found: " +:+ file_path))
  else if negb (is_mp3 file_path) then
    throw (Known (ValueError ("File must be an MP3: " +:+ file_path)))
  else
    key ← _upload_to_s3 w file_path bucket;
    result ← transcribe_s3_file self w bucket key additional_settings;
    mret {| processed := processed result;
            md_bucket := md_bucket result; md_key := md_key result;
            md_file_name := Some (basename file_path);
            md_file_path := Some file_path;
            s3_location := s3_location result |}.

(** *** [lambda_handler] *)

Record S3Bucket := { name : option string }.
Record S3Object := { key : option string }.
Record S3Entity := { s3_bucket : option S3Bucket; s3_object : option S3Object }.
Record S3EventRecord := { eventSource : option string; s3 : option S3Entity }.

(** The value of [event['Records']].
    - [RecordList records]: an array of event records;
    - [NoLength len_msg index_msg]: null, a number or a boolean, on which
      [len] raises [TypeError(len_msg)] and indexing raises
      [TypeError(index_msg)];
    - [NoRecords msg]: a string, an object, or an array whose first element
      is no object: it has a length, and [event['Records'][0].get] raises an
      exception that prints as [msg]. *)
Inductive RecordsValue :=
| RecordList (records : list S3EventRecord)
| NoLength (len_msg index_msg : string)
| NoRecords (msg : string).

Record LambdaEvent := {
  Records : option RecordsValue;
  ev_file_path : option string;
  ev_bucket : option string;
  transcribeSettings : option (gmap string Setting);
  outputBucket : option string;
  outputPrefix : option string
}.

Inductive Body :=
| BodyResult (result : Transcription)
| BodyError (error : string).

Record HandlerResponse := {
  statusCode : Z;
  body : Body
}.

(** [d[key]] as a step of a run. *)
Definition getitem_io {A} (k : string) (field : option A) : io A :=
  quiet (of_result (getitem k field)).

(** The transcription that the event asks for: the body of the [try] up to
    "Transcription completed successfully".  [inl] is the early [return] for
    an S3 object that is no MP3. *)
Definition handle_event (w : World) (event : LambdaEvent)
  : io (HandlerResponse + Transcription) :=
  match getenv w "TRANSCRIBE_S3_BUCKET" with
  | Some (String c b) =>
      let default_bucket := String c b in
      transcriber ← quiet (new_transcriber w);
      s3_record ←
        match Records event with
        | Some (RecordList records) =>
            match records with
            | first :: _ =>
                mret (match eventSource first with
                      | Some src =>
                          if String.eqb src "aws:s3" then Some first else None
                      | None => None
                      end)
            | [] => throw (OtherException "list index out of range")
            end
        | Some (NoLength _ index_msg) => throw (Known (TypeError index_msg))
        | Some (NoRecords msg) => throw (OtherException msg)
        | None => mret None
        end;
      match s3_record with
      | Some record =>
        entity ← getitem_io "s3" (s3 record);
        bucket_obj ← getitem_io "bucket" (s3_bucket entity);
        bucket ← getitem_io "name" (name bucket_obj);
        object_obj ← getitem_io "object" (s3_object entity);
        key ← getitem_io "key" (key object_obj);
        if negb (is_mp3 key) then
          mret (inl {| statusCode := 400;
                       body := BodyError ("File is not an MP3: " +:+ key) |})
        else
          let additional_settings := transcribeSettings event in
          result ← transcribe_s3_file transcriber w bucket key additional_settings;
          mret (inr result)
      | None =>
        match ev_file_path event with
        | Some (String c p) =>
            let file_path := String c p in
            let bucket := default default_bucket (ev_bucket event) in
            let additional_settings := transcribeSettings event in
            result ← transcribe_file transcriber w file_path bucket
                       additional_settings;
            mret (inr result)
        | _ => throw (Known (ValueError "file_path not provided in event"))
        end
      end
  | _ =>
      throw (Known (ValueError
                      "TRANSCRIBE_S3_BUCKET environment variable is required"))
  end.

(** "Handle result based on configuration": the result is saved to the
    output bucket when the event names one.  A failure of the upload or of
    the removal of the temporary file is logged and dropped. *)
Definition save_result (w : World) (event : LambdaEvent) (result : Transcription)
  : io Transcription :=
  match outputBucket event with
  | Some (String c b) =>
      let output_bucket := String c b in
      let output_prefix := default "transcripts/" (outputPrefix event) in
      let output_key :=
        output_prefix +:+ str_int (time_at_save w) +:+ "-transcript.json" in
      temp_path ← quiet (dump_result w result);
      let stored :=
        {| processed := processed result;
           md_bucket := md_bucket result; md_key := md_key result;
           md_file_name := md_file_name result;
           md_file_path := md_file_path result;
           s3_location := Some (output_bucket, output_key) |} in
      Run (Returns
             match upload_result w temp_path output_bucket output_key with
             | Returns _ =>
                 match unlink_result w temp_path with
                 | Returns _ => stored
                 | Throws _ => stored
                 end
             | Throws _ => result
             end)
          [UploadFile temp_path output_bucket output_key]
  | _ => mret result
  end.

(** The [except] clauses of the handler. *)
Definition error_response (f : failure) : HandlerResponse :=
  match f with
  | FileNotFoundError msg => {| statusCode := 404; body := BodyError msg |}
  | Known (ValueError msg) => {| statusCode := 400; body := BodyError msg |}
  | Known (TranscriptionError msg) =>
      {| statusCode := 500; body := BodyError msg |}
  | _ =>
      {| statusCode := 500;
         body := BodyError ("An unexpected error occurred: " +:+ str_failure f) |}
  end.

(** The statements before the [try]: when the event has [Records], the
    handler logs [len(event['Records'])]. *)
Definition log_event (event : LambdaEvent) : result unit :=
  match Records event with
  | Some (NoLength len_msg _) => Raise (TypeError len_msg)
  | _ => Ok tt
  end.

(** What the handler does and the AWS calls it makes: it returns a response,
    or it raises what the statements before the [try] raise. *)
Definition lambda_handler (w : World) (event : LambdaEvent)
  : completion HandlerResponse * list Call :=
  match log_event event with
  | Raise e => (Throws (Known e), [])
  | Ok _ =>
      let run :=
        outcome ← handle_event w event;
        match outcome with
        | inl response => mret response
        | inr result =>
            saved ← save_result w event result;
            mret {| statusCode := 200; body := BodyResult saved |}
        end in
      match completion_of run with
      | Returns response => (Returns response, calls_of run)
      | Throws f => (Returns (error_response f), calls_of run)
      end
  end.

(** ** Further vocabulary *)

(** [event['Records']], when present, has a length. *)
Definition records_have_length (event : LambdaEvent) : bool :=
  match Records event with
  | Some (NoLength _ _) => false
  | _ => true
  end.

(** One reading of [SumOverLen]: [sum] as a left fold from 0, which is how
    CPython adds floats before version 3.12, and the division by the length,
    all in binary64. *)
Definition left_sum (values : list float64) : float64 :=
  fold_left (SFadd prec emax) values (float_of_int 0).

Definition rounded_mean (values : list float64) : float64 :=
  SFdiv prec emax (left_sum values) (float_of_int (Z.of_nat (length values))).

(** What [float] raises on a JSON value that stands for no float. *)
Definition conversion_error (x : Scalar) : option exn :=
  match x with
  | JInt n =>
      if in_float_range n then None
      else Some (OverflowError "int too large to convert to float")
  | JText msg => Some (ValueError msg)
  | JOther msg => Some (TypeError msg)
  | JFloat _ | JBool _ | JNumeral _ => None
  end.

(** The payload has what [_process_transcript] needs: every segment its
    label, every segment entry its start and end time, a duration that is
    absent or stands for a float, and such confidences where
    [_calculate_avg_confidence] reads them. *)
Definition processable (transcript_data : TranscriptData) : bool :=
  forallb well_typed_segment (segments_of transcript_data) &&
  numeric (audio_duration (get_results transcript_data)) &&
  forallb (fun it => numeric (carried_confidence it)) (items_of transcript_data).

(** No two neighbours of the list are equal. *)
Fixpoint distinct_neighbours (l : list string) : Prop :=
  match l with
  | a :: rest =>
      match rest with
      | b :: _ => a <> b
      | [] => True
      end /\ distinct_neighbours rest
  | [] => True
  end.

(** What the walk maintains when every pronunciation item has an
    alternative: the speakers of the turns, followed by the current speaker,
    have distinct neighbours; a current speaker comes with a non-empty
    buffer; and there is no turn before there is a speaker. *)
Definition neighbours_inv (g : Tracked) : Prop :=
  distinct_neighbours (map fst (tracked_turns g) ++ option_list (tracked_speaker g))
  /\ (is_Some (tracked_speaker g) -> tracked_buffer g <> [])
  /\ (tracked_speaker g = None -> tracked_turns g = []).

(** The seconds slept in a polling trace. *)
Fixpoint slept (trace : list Event) : Z :=
  match trace with
  | [] => 0
  | Sleep d :: trace' => d + slept trace'
  | GetTranscriptionJob :: trace' => slept trace'
  end.

(** What a reply that ends the wait makes the loop do. *)
Definition decisive_outcome (reply : JobReply) : result TranscriptionJob :=
  match reply with
  | Response job =>
      if String.eqb (TranscriptionJobStatus job) "COMPLETED" then Ok job
      else Raise (TranscriptionError
                    ("Transcription job failed: " +:+
                     default "Unknown reason" (FailureReason job)))
  | ClientError msg =>
      Raise (TranscriptionError ("Error checking transcription job: " +:+ msg))
  end.

(** A payload whose second word has a confidence that spells no float. *)
Definition garbled_confidence : TranscriptData :=
  payload ["Hi there"]
    [word "Hi" "0.0" 1;
     {| type := Some "pronunciation"; start_time := Some "1.0";
        alternatives := Some [{| content := Some "there";
                                 alt_confidence :=
                                   Some (JText
                                           "could not convert string to float: 'n/a'")
                              |}] |}]
    None.

(** A job that fails at the second check. *)
Definition fails_at_second (n : nat) : JobReply :=
  Response {| TranscriptionJobStatus :=
                if (n <? 1)%nat then "IN_PROGRESS" else "FAILED";
              FailureReason := Some "Unsupported audio" |}.

(** ** Sample worlds and events *)

(** A world built from the presence of the local files, the value of
    [TRANSCRIBE_S3_BUCKET], the answers of the job and the outcome of saving
    the result; every other call succeeds, and the transcript downloaded is
    [two_speakers]. *)
Definition make_world (files : bool) (env_bucket : option string)
    (replies : nat -> JobReply) (save : completion unit) : World :=
  {| path_exists := fun _ => files;
     path_exists_at_upload := fun _ => files;
     upload_file := fun _ _ _ => Returns tt;
     time_at_start := 1700000000;
     md5_hexdigest := fun _ => "0cc175b9c0f1b6a831c399e269772661";
     start_transcription_job := fun _ => Returns tt;
     get_transcription_job := fun _ => replies;
     transcript_file_uri := fun _ => Some "s3://transcripts/2024/job.json";
     make_temp_file := Returns "/tmp/tmp1.json";
     download_file := fun _ _ _ => Returns tt;
     load_json := fun _ => Returns two_speakers;
     unlink := fun _ => Returns tt;
     getenv := fun k => if String.eqb k "TRANSCRIBE_S3_BUCKET"
                        then env_bucket else None;
     new_transcriber := Returns {| max_retries := 5; retry_delay := 10 |};
     time_at_save := 1700000100;
     dump_result := fun _ => Returns "/tmp/tmp2.json";
     upload_result := fun _ _ _ => save;
     unlink_result := fun _ => Returns tt |}.

Definition calm_world : World :=
  make_world true (Some "audio") completes_at_third (Returns tt).

Definition default_transcriber : Transcriber :=
  {| max_retries := 5; retry_delay := 10 |}.

(** The S3 notification for an object, and a direct invocation. *)
Definition s3_event (bucket_name object_key : string) : LambdaEvent :=
  {| Records :=
       Some (RecordList
               [{| eventSource := Some "aws:s3";
                   s3 := Some {| s3_bucket := Some {| name := Some bucket_name |};
                                 s3_object := Some {| key := Some object_key |} |} |}]);
     ev_file_path := None;
     ev_bucket := None;
     transcribeSettings := None;
     outputBucket := None;
     outputPrefix := None |}.

Definition direct_event (file_path : string) (output : option string)
  : LambdaEvent :=
  {| Records := None;
     ev_file_path := Some file_path;
     ev_bucket := None;
     transcribeSettings := None;
     outputBucket := output;
     outputPrefix := None |}.

(** * Properties *)

(** ** The result monad and loops *)

Lemma for_each_app {A S} (body : S -> A -> result S) (l1 l2 : list A) (s : S) :
  for_each body (l1 ++ l2) s = s' ← for_each body l1 s; for_each body l2 s'.
Proof.
  revert s. induction l1 as [|x l1 IH]; intros s; simpl; [done|].
  destruct (body s x) as [s'|e]; simpl; [apply IH | done].
Qed.

(** A loop whose body never raises is a left fold. *)
Lemma for_each_pure {A S} (body : S -> A -> result S) (f : S -> A -> S)
    (l : list A) (s : S) :
  Forall (fun x => forall s0, body s0 x = Ok (f s0 x)) l ->
  for_each body l s = Ok (fold_left f l s).
Proof.
  intros H. revert s. induction H as [|x l Hx _ IH]; intros s; simpl; [done|].
  rewrite Hx. simpl. apply IH.
Qed.

Lemma is_empty_nil {A} (l : list A) : is_empty l = true <-> l = [].
Proof. destruct l; simpl; split; congruence. Qed.

Lemma is_empty_cons {A} (l : list A) : is_empty l = false <-> l <> [].
Proof. destruct l; simpl; split; congruence. Qed.

(** ** What [_process_transcript] returns *)

Lemma process_ok (td : TranscriptData) (r : Processed) :
  _process_transcript td = Ok r <-> process_body td = Ok r.
Proof.
  unfold _process_transcript. destruct (process_body td); split; congruence.
Qed.

(** Without segments: the transcript chunks, no conversation, no speaker. *)
Lemma process_without_segments (td : TranscriptData) (r : Processed) :
  segments_of td = [] ->
  _process_transcript td = Ok r ->
  transcript r
    = join " " (map (fun t => default "" (chunk_transcript t)) (transcripts_of td))
  /\ conversation r = None
  /\ speakers_identified (metadata r) = 0%nat.
Proof.
  intros Hseg Hr. apply process_ok in Hr. revert Hr.
  unfold process_body. fold (transcripts_of td) (items_of td) (segments_of td).
  rewrite Hseg. simpl.
  destruct (float _) as [d|]; simpl; [|done].
  destruct (_calculate_avg_confidence _) as [c|]; simpl; [|done].
  intros [= <-]. done.
Qed.

(** With segments: the conversation built from the lookup, rendered line by
    line. *)
Lemma process_with_segments (td : TranscriptData) (r : Processed) :
  segments_of td <> [] ->
  _process_transcript td = Ok r ->
  exists m n,
    build_word_speaker_map (segments_of td) = Ok m
    /\ conversation r = Some (build_conversation m (items_of td))
    /\ transcript r
         = join newline (map format_turn (build_conversation m (items_of td)))
    /\ count_speakers (segments_of td) = Ok n
    /\ speakers_identified (metadata r) = n.
Proof.
  intros Hseg Hr. apply process_ok in Hr. revert Hr.
  apply is_empty_cons in Hseg.
  unfold process_body. fold (transcripts_of td) (items_of td) (segments_of td).
  rewrite Hseg.
  destruct (build_word_speaker_map _) as [m|]; simpl; [|done].
  destruct (float _) as [d|]; simpl; [|done].
  destruct (_calculate_avg_confidence _) as [c|]; simpl; [|done].
  destruct (count_speakers _) as [n|]; simpl; [|done].
  intros [= <-]. exists m, n. done.
Qed.

(** ** Totality on well-typed payloads *)

Lemma for_each_total {A S} (body : S -> A -> result S) (l : list A) :
  Forall (fun x => forall s, exists s', body s x = Ok s') l ->
  forall s, exists s', for_each body l s = Ok s'.
Proof.
  induction 1 as [|x l Hx _ IH]; intros s; simpl; [by eexists|].
  destruct (Hx s) as [s' ->]. simpl. apply IH.
Qed.

Lemma present_Some {A} (o : option A) : present o = true -> exists a, o = Some a.
Proof. destruct o; [by eexists | done]. Qed.

Lemma word_speaker_map_segment_total (seg : Segment) (m : gmap string SpeakerEntry) :
  well_typed_segment seg = true ->
  exists m', word_speaker_map_segment m seg = Ok m'.
Proof.
  unfold well_typed_segment. intros [Hl Hi]%andb_prop.
  apply present_Some in Hl as [l Hl].
  unfold word_speaker_map_segment.
  apply for_each_total. rewrite forallb_forall in Hi.
  apply List.Forall_forall. intros it Hit m0.
  destruct (andb_prop _ _ (Hi it Hit)) as [[s Hs]%present_Some [e He]%present_Some].
  unfold word_speaker_map_step. rewrite Hl, Hs, He. simpl. by eexists.
Qed.

Lemma build_word_speaker_map_total (segs : list Segment) :
  forallb well_typed_segment segs = true ->
  exists m, build_word_speaker_map segs = Ok m.
Proof.
  intros H. unfold build_word_speaker_map. apply for_each_total.
  rewrite forallb_forall in H. apply List.Forall_forall.
  intros seg Hseg m. apply word_speaker_map_segment_total. auto.
Qed.

Lemma count_speakers_total (segs : list Segment) :
  forallb well_typed_segment segs = true ->
  exists n, count_speakers segs = Ok n.
Proof.
  intros H. unfold count_speakers.
  destruct (for_each_total
              (fun acc seg => l ← getitem "speaker_label" (speaker_label seg);
                              mret (acc ++ [l])) segs) with (s := @nil string)
    as [labels ->]; [|simpl; by eexists].
  rewrite forallb_forall in H. apply List.Forall_forall.
  intros seg Hseg acc. specialize (H seg Hseg).
  unfold well_typed_segment in H. apply andb_prop in H as [[l Hl]%present_Some _].
  rewrite Hl. simpl. by eexists.
Qed.

(** [float] converts exactly the values that stand for a float. *)
Lemma float_numeric_value (x : Scalar) (v : float64) :
  float x = Ok v <-> numeric_value x = Some v.
Proof.
  destruct x as [y|n|[|]|y|msg|msg]; cbn [float numeric_value];
    try (split; congruence).
  unfold in_float_range.
  destruct (float_of_int n); cbn; split; intros [= <-]; reflexivity.
Qed.

Lemma float_raises (x : Scalar) :
  numeric_value x = None -> exists e, float x = Raise e.
Proof.
  destruct x as [y|n|[|]|y|msg|msg]; cbn [float numeric_value];
    try done; try by eexists.
  unfold in_float_range. destruct (float_of_int n); cbn; try done. by eexists.
Qed.

Lemma numeric_float (o : option Scalar) (d : Scalar) :
  numeric o = true -> numeric (Some d) = true ->
  exists q, float (default d o) = Ok q.
Proof.
  assert (forall x, numeric (Some x) = true -> exists q, float x = Ok q) as H.
  { intros x. simpl. destruct (numeric_value x) as [v|] eqn:Hv; [|done].
    intros _. exists v. by apply float_numeric_value. }
  destruct o as [x|]; simpl; intros Ho Hd; auto.
Qed.

Lemma confidence_step_total (item : Item) (vals : list float64) :
  well_typed_item item = true ->
  exists vals', confidence_step vals item = Ok vals'.
Proof.
  unfold well_typed_item, confidence_step. intros H.
  destruct (is_pronunciation item); [|by eexists].
  destruct (default [] (alternatives item)) as [|a l]; [by eexists|].
  simpl in H. apply andb_prop in H as [Ha _].
  destruct (alt_confidence a) as [c|]; [|by eexists].
  destruct (numeric_float (Some c) c Ha Ha) as [v Hv]. simpl in Hv.
  rewrite Hv. simpl. by eexists.
Qed.

Lemma calculate_avg_confidence_total (its : list Item) :
  forallb well_typed_item its = true ->
  exists q, _calculate_avg_confidence its = Ok q.
Proof.
  intros H. unfold _calculate_avg_confidence.
  destruct (for_each_total confidence_step its) with (s := @nil float64) as [vals ->];
    [|simpl; by eexists].
  rewrite forallb_forall in H. apply List.Forall_forall.
  intros it Hit vals. apply confidence_step_total. auto.
Qed.

Lemma process_returns (td : TranscriptData) :
  well_typed td = true -> exists r, _process_transcript td = Ok r.
Proof.
  unfold well_typed. intros [[Hsegs Hits]%andb_prop Hdur]%andb_prop.
  destruct (build_word_speaker_map_total _ Hsegs) as [m Hm].
  destruct (count_speakers_total _ Hsegs) as [n Hn].
  destruct (calculate_avg_confidence_total _ Hits) as [c Hc].
  destruct (numeric_float _ (JInt 0) Hdur eq_refl) as [d Hd].
  assert (exists r, process_body td = Ok r) as [r Hr].
  { unfold process_body. fold (transcripts_of td) (items_of td) (segments_of td).
    rewrite Hm, Hn, Hc, Hd.
    destruct (is_empty (segments_of td)); simpl; by eexists. }
  exists r. by apply process_ok.
Qed.

(** The error branch is live: a segment without its speaker label makes the
    function raise. *)
Example process_raises_on_missing_label :
  _process_transcript missing_label
  = Raise (TranscriptionError "Failed to process transcript: 'speaker_label'").
Proof. reflexivity. Qed.

(** A duration that is an integer beyond the range of a float makes the
    function raise too. *)
Example process_raises_on_oversized_duration :
  _process_transcript oversized_duration
  = Raise (TranscriptionError
             "Failed to process transcript: int too large to convert to float").
Proof. vm_compute. reflexivity. Qed.

(** C8, as the specification states it, fails on a payload that has every
    field of the data model, with numeric times, duration and confidences:
    when the duration is the integer 10^400, [float] raises [OverflowError],
    and [_process_transcript] raises [TranscriptionError]. *)
Lemma numbers_do_not_make_total :
  ~ (forall td,
        number_typed td = true ->
        exists r, _process_transcript td = Ok r
                  /\ forall msg, _process_transcript td
                                 <> Raise (TranscriptionError msg)).
Proof.
  intros H.
  destruct (H oversized_duration) as (r & Hr & _); [vm_compute; reflexivity|].
  rewrite process_raises_on_oversized_duration in Hr. discriminate Hr.
Qed.

(** C8, amended. For every well-typed payload whose duration and confidences
    stand for a float (a real, an integer within the range of a float, a
    string that spells a float) [_process_transcript] returns a result: it
    is total there, and the branch that raises [TranscriptionError] is not
    taken. *)
Theorem process_transcript_total (td : TranscriptData) :
  well_typed td = true ->
  exists r, _process_transcript td = Ok r
            /\ forall msg, _process_transcript td <> Raise (TranscriptionError msg).
Proof.
  intros H. destruct (process_returns td H) as [r Hr].
  exists r. rewrite Hr. split; [done | congruence].
Qed.

Lemma process_transcript_total_witness :
  well_typed two_speakers = true /\
  exists r, _process_transcript two_speakers = Ok r
            /\ forall msg, _process_transcript two_speakers
                           <> Raise (TranscriptionError msg).
Proof.
  split; [reflexivity | apply (process_transcript_total two_speakers); reflexivity].
Defined.

(** ** The [transcript] field *)

(** C1, as the specification states it, fails on "Hello, world.": the
    transcript is the chunk text ["Hello, world."], of two words, while the
    four items joined by spaces read ["Hello , world ."]. *)
Lemma transcript_is_not_items_text :
  ~ (forall td r,
        well_typed td = true ->
        _process_transcript td = Ok r ->
        transcript r = items_text (items_of td)).
Proof.
  intros H.
  specialize (H hello_world _ eq_refl eq_refl).
  vm_compute in H. discriminate H.
Qed.

Lemma format_turn_line (turn : Turn) :
  format_turn turn
  = (if String.eqb (speaker turn) "spk_0" then "Doctor: " else "Patient: ")
    +:+ text turn.
Proof. unfold format_turn. by destruct (String.eqb (speaker turn) "spk_0"). Qed.

(** C1, amended. On a well-typed payload the [transcript] field is, without
    speaker segments, the texts of [results.transcripts] joined by single
    spaces, and with speaker segments the conversation turns, each rendered
    as the line "Doctor: " (speaker [spk_0]) or "Patient: " (any other
    speaker) followed by the text of the turn, joined by newlines;
    [results.items] enters it only through the turns. *)
Theorem transcript_field (td : TranscriptData) :
  well_typed td = true ->
  exists r,
    _process_transcript td = Ok r
    /\ (segments_of td = [] ->
        transcript r
        = join " " (map (fun t => default "" (chunk_transcript t))
                        (transcripts_of td)))
    /\ (segments_of td <> [] ->
        exists conv,
          conversation r = Some conv
          /\ transcript r
             = join (String (Ascii.ascii_of_nat 10) EmptyString)
                 (map (fun turn =>
                         (if String.eqb (speaker turn) "spk_0"
                          then "Doctor: " else "Patient: ") +:+ text turn)
                      conv)).
Proof.
  intros Hwt. destruct (process_returns td Hwt) as [r Hr].
  exists r. split; [done|]. split; intros Hseg.
  - by destruct (process_without_segments td r Hseg Hr) as (-> & _).
  - destruct (process_with_segments td r Hseg Hr) as (m & n & _ & Hc & Ht & _).
    exists (build_conversation m (items_of td)). split; [done|].
    rewrite Ht. fold newline. f_equal.
    apply map_ext. intros turn. apply format_turn_line.
Qed.

Lemma transcript_field_witness :
  well_typed two_speakers = true /\
  exists r,
    _process_transcript two_speakers = Ok r
    /\ (segments_of two_speakers = [] ->
        transcript r
        = join " " (map (fun t => default "" (chunk_transcript t))
                        (transcripts_of two_speakers)))
    /\ (segments_of two_speakers <> [] ->
        exists conv,
          conversation r = Some conv
          /\ transcript r
             = join (String (Ascii.ascii_of_nat 10) EmptyString)
                 (map (fun turn =>
                         (if String.eqb (speaker turn) "spk_0"
                          then "Doctor: " else "Patient: ") +:+ text turn)
                      conv)).
Proof.
  split; [reflexivity | apply (transcript_field two_speakers); reflexivity].
Defined.

(** The transcript of the two-speaker sample, spelled out. *)
Example two_speakers_transcript :
  exists r,
    _process_transcript two_speakers = Ok r
    /\ transcript r
       = "Doctor: Hi there"
         +:+ String (Ascii.ascii_of_nat 10) EmptyString +:+ "Patient: Hello".
Proof. eexists. split; reflexivity. Qed.

(** ** The number of speakers *)

Lemma collect_labels (segs : list Segment) (acc labels' : list string) :
  for_each (fun acc seg => l ← getitem "speaker_label" (speaker_label seg);
                           mret (acc ++ [l])) segs acc = Ok labels' ->
  exists labels,
    map speaker_label segs = map Some labels /\ labels' = acc ++ labels.
Proof.
  revert acc. induction segs as [|seg segs IH]; intros acc; simpl.
  - intros [= <-]. exists []. by rewrite app_nil_r.
  - destruct (speaker_label seg) as [l|]; simpl; [|done].
    intros (labels & Hl & ->)%IH. exists (l :: labels).
    split; [simpl; by f_equal|]. by rewrite <- app_assoc.
Qed.

Lemma size_list_to_set_remove_dups (l : list string) :
  size (list_to_set l : gset string) = length (remove_dups l).
Proof.
  rewrite <- (size_list_to_set (C := gset string) (remove_dups l))
    by apply NoDup_remove_dups.
  f_equal. apply set_eq. intros x.
  by rewrite !elem_of_list_to_set, elem_of_remove_dups.
Qed.

(** C6. Without speaker segments (the list empty or absent) the conversation is
    absent and [speakers_identified] is 0; with segments,
    [speakers_identified] is the number of distinct speaker labels in them. *)
Theorem speakers_identified_spec (td : TranscriptData) :
  well_typed td = true ->
  exists r,
    _process_transcript td = Ok r
    /\ (segments_of td = [] ->
        conversation r = None /\ speakers_identified (metadata r) = 0%nat)
    /\ (segments_of td <> [] ->
        exists labels,
          map speaker_label (segments_of td) = map Some labels
          /\ speakers_identified (metadata r) = length (remove_dups labels)).
Proof.
  intros Hwt. destruct (process_returns td Hwt) as [r Hr].
  exists r. split; [done|]. split; intros Hseg.
  - by destruct (process_without_segments td r Hseg Hr) as (_ & -> & ->).
  - destruct (process_with_segments td r Hseg Hr) as (m & n & _ & _ & _ & Hn & ->).
    unfold count_speakers in Hn.
    destruct (for_each _ _ _) as [labels'|] eqn:E; simpl in Hn; [|done].
    apply collect_labels in E as (labels & Hl & ->). simpl in Hn.
    injection Hn as <-. exists labels. split; [done|].
    apply size_list_to_set_remove_dups.
Qed.

Lemma speakers_identified_spec_witness :
  well_typed two_speakers = true /\
  exists r,
    _process_transcript two_speakers = Ok r
    /\ (segments_of two_speakers = [] ->
        conversation r = None /\ speakers_identified (metadata r) = 0%nat)
    /\ (segments_of two_speakers <> [] ->
        exists labels,
          map speaker_label (segments_of two_speakers) = map Some labels
          /\ speakers_identified (metadata r) = length (remove_dups labels)).
Proof.
  split; [reflexivity | apply (speakers_identified_spec two_speakers); reflexivity].
Defined.

(** The segment list may be absent at either level of the payload. *)
Example segments_absent (td : TranscriptData) :
  results td = None \/
  (exists res, results td = Some res /\ speaker_labels res = None) \/
  (exists res sl, results td = Some res /\ speaker_labels res = Some sl
                  /\ segments sl = None) ->
  segments_of td = [].
Proof.
  unfold segments_of, get_results.
  intros [-> | [(res & -> & H) | (res & sl & -> & H1 & H2)]]; simpl; [done| |].
  - by rewrite H.
  - by rewrite H1; simpl; rewrite H2.
Qed.

(** ** The start-time-to-speaker lookup *)

Section Lookup.
Variable t : string.

Lemma word_speaker_map_step_inv seg m it m' :
  word_speaker_map_step seg m it = Ok m' ->
  exists l e s,
    speaker_label seg = Some l /\ seg_end_time it = Some e
    /\ seg_start_time it = Some s
    /\ m' = <[s := {| entry_speaker := l; entry_end_time := e |}]> m.
Proof.
  unfold word_speaker_map_step.
  destruct (speaker_label seg) as [l|]; simpl; [|done].
  destruct (seg_end_time it) as [e|]; simpl; [|done].
  destruct (seg_start_time it) as [s|]; simpl; [|done].
  intros [= <-]. by exists l, e, s.
Qed.

Lemma segment_items_own seg its m m' :
  for_each (word_speaker_map_step seg) its m = Ok m' ->
  In t (starts its) \/ owned_by t seg m ->
  owned_by t seg m'.
Proof.
  revert m. induction its as [|it its IH]; intros m; simpl.
  - intros [= <-] [[] | H]. exact H.
  - destruct (word_speaker_map_step seg m it) as [m1|] eqn:E; simpl; [|done].
    apply word_speaker_map_step_inv in E as (l & e & s & Hl & He & Hs & ->).
    intros Hrest Hin. apply (IH _ Hrest).
    unfold starts in Hin. simpl in Hin. rewrite Hs in Hin.
    destruct (decide (s = t)) as [->|Hne].
    + right. eexists. by rewrite lookup_insert_eq.
    + destruct Hin as [[Heq | Hin] | (e0 & Hm & Hl0)]; [done | by left |].
      right. exists e0. by rewrite lookup_insert_ne.
Qed.

Lemma segment_items_dom seg its m m' :
  for_each (word_speaker_map_step seg) its m = Ok m' ->
  is_Some (m' !! t) <-> is_Some (m !! t) \/ In t (starts its).
Proof.
  revert m. induction its as [|it its IH]; intros m; simpl.
  - intros [= <-]. tauto.
  - destruct (word_speaker_map_step seg m it) as [m1|] eqn:E; simpl; [|done].
    apply word_speaker_map_step_inv in E as (l & e & s & Hl & He & Hs & ->).
    intros Hrest. rewrite (IH _ Hrest).
    unfold starts. simpl. rewrite Hs. simpl.
    destruct (decide (s = t)) as [->|Hne].
    + rewrite lookup_insert_eq. split; [|intros _; left; by eexists]. tauto.
    + rewrite lookup_insert_ne by done. tauto.
Qed.

Lemma segment_items_speaker seg its m m' e :
  for_each (word_speaker_map_step seg) its m = Ok m' ->
  m' !! t = Some e ->
  m !! t = Some e \/ speaker_label seg = Some (entry_speaker e).
Proof.
  revert m. induction its as [|it its IH]; intros m; simpl.
  - intros [= <-]. tauto.
  - destruct (word_speaker_map_step seg m it) as [m1|] eqn:E; simpl; [|done].
    apply word_speaker_map_step_inv in E as (l & e0 & s & Hl & He & Hs & ->).
    intros Hrest Hm. destruct (IH _ Hrest Hm) as [H|H]; [|by right].
    destruct (decide (s = t)) as [->|Hne].
    + rewrite lookup_insert_eq in H. injection H as <-. by right.
    + rewrite lookup_insert_ne in H by done. by left.
Qed.

Lemma segments_dom segs m m' :
  for_each word_speaker_map_segment segs m = Ok m' ->
  is_Some (m' !! t) <-> is_Some (m !! t) \/ In t (segment_start_times segs).
Proof.
  revert m. induction segs as [|seg segs IH]; intros m; simpl.
  - intros [= <-]. tauto.
  - destruct (word_speaker_map_segment m seg) as [m1|] eqn:E; simpl; [|done].
    intros Hrest. rewrite (IH _ Hrest), (segment_items_dom _ _ _ _ E).
    rewrite in_app_iff. unfold starts. tauto.
Qed.

Lemma segments_speaker segs m m' e :
  for_each word_speaker_map_segment segs m = Ok m' ->
  m' !! t = Some e ->
  m !! t = Some e
  \/ exists seg, In seg segs /\ speaker_label seg = Some (entry_speaker e).
Proof.
  revert m. induction segs as [|seg segs IH]; intros m; simpl.
  - intros [= <-]. tauto.
  - destruct (word_speaker_map_segment m seg) as [m1|] eqn:E; simpl; [|done].
    intros Hrest Hm. destruct (IH _ Hrest Hm) as [H | (seg' & Hin & Hl)].
    + destruct (segment_items_speaker _ _ _ _ _ E H); [by left|].
      right. exists seg. auto.
    + right. exists seg'. auto.
Qed.

(** Segments that do not claim [t] leave its entry alone. *)
Lemma segments_unclaimed segs m m' :
  for_each word_speaker_map_segment segs m = Ok m' ->
  ~ In t (segment_start_times segs) ->
  m' !! t = m !! t.
Proof.
  revert m. induction segs as [|seg segs IH]; intros m; simpl.
  - by intros [= <-].
  - destruct (word_speaker_map_segment m seg) as [m1|] eqn:E; simpl; [|done].
    intros Hrest Hnin. rewrite in_app_iff in Hnin.
    rewrite (IH _ Hrest) by tauto.
    clear Hrest IH. unfold word_speaker_map_segment in E.
    fold (starts (default [] (seg_items seg))) in Hnin.
    revert m E Hnin. generalize (default [] (seg_items seg)).
    intros its. induction its as [|it its IH]; intros m; simpl.
    + by intros [= <-].
    + destruct (word_speaker_map_step seg m it) as [m2|] eqn:E2; simpl; [|done].
      apply word_speaker_map_step_inv in E2 as (l & e & s & Hl & He & Hs & ->).
      intros Hrest Hnin. unfold starts in Hnin. simpl in Hnin.
      rewrite Hs in Hnin. simpl in Hnin.
      rewrite (IH _ Hrest) by (unfold starts; tauto).
      apply lookup_insert_ne. tauto.
Qed.
End Lookup.

(** The keys of the lookup are the start times the segments claim. *)
Lemma word_speaker_map_dom segs m t :
  build_word_speaker_map segs = Ok m ->
  is_Some (m !! t) <-> In t (segment_start_times segs).
Proof.
  intros H. rewrite (segments_dom t _ _ _ H), lookup_empty.
  split; [intros [[? [=]]|]; done | by right].
Qed.

(** Every speaker in the lookup is the label of a segment. *)
Lemma word_speaker_map_speaker segs m t e :
  build_word_speaker_map segs = Ok m ->
  m !! t = Some e ->
  exists seg, In seg segs /\ speaker_label seg = Some (entry_speaker e).
Proof.
  intros H Hm. destruct (segments_speaker t _ _ _ _ H Hm) as [H0|]; [|done].
  by rewrite lookup_empty in H0.
Qed.

(** C7. When several segments claim the same start time, the lookup maps it to
    the speaker label of the last of them in iteration order: for a segment
    [seg] that claims [t], followed only by segments that do not, the lookup
    built from the whole list sends [t] to the label of [seg], whatever the
    earlier segments say. *)
Theorem later_segment_wins (before after : list Segment) (seg : Segment)
    (t : string) :
  forallb well_typed_segment (before ++ seg :: after) = true ->
  In t (segment_start_times [seg]) ->
  ~ In t (segment_start_times after) ->
  exists m e,
    build_word_speaker_map (before ++ seg :: after) = Ok m
    /\ m !! t = Some e
    /\ speaker_label seg = Some (entry_speaker e).
Proof.
  intros Hwt Hin Hnin.
  destruct (build_word_speaker_map_total _ Hwt) as [m Hm]. exists m.
  assert (Hm' := Hm).
  unfold build_word_speaker_map in Hm'. rewrite for_each_app in Hm'.
  destruct (for_each _ before ∅) as [m0|]; simpl in Hm'; [|done].
  destruct (word_speaker_map_segment m0 seg) as [m1|] eqn:E; simpl in Hm'; [|done].
  assert (owned_by t seg m1) as (e & He & Hl).
  { apply (segment_items_own t seg _ m0 m1 E). left.
    simpl in Hin. by rewrite app_nil_r in Hin. }
  exists e. split; [done|]. split; [|done].
  by rewrite (segments_unclaimed t _ _ _ Hm' Hnin).
Qed.

Lemma later_segment_wins_witness :
  forallb well_typed_segment
    ([segment "spk_0" [("0.0", "0.5"); ("1.0", "1.5")]]
     ++ segment "spk_1" [("1.0", "1.6")] :: []) = true
  /\ exists m e,
       build_word_speaker_map colliding = Ok m
       /\ m !! "1.0" = Some e
       /\ speaker_label (segment "spk_1" [("1.0", "1.6")])
          = Some (entry_speaker e).
Proof.
  split; [reflexivity|].
  apply (later_segment_wins
           [segment "spk_0" [("0.0", "0.5"); ("1.0", "1.5")]] []
           (segment "spk_1" [("1.0", "1.6")]) "1.0").
  - reflexivity.
  - simpl. auto.
  - simpl. tauto.
Defined.

(** ** The average confidence *)

Lemma confidence_loop (its : list Item) (acc : list float64) :
  forallb (fun it => numeric (carried_confidence it)) its = true ->
  for_each confidence_step its acc = Ok (acc ++ confidences_of its).
Proof.
  revert acc. induction its as [|it its IH]; intros acc; simpl.
  - by rewrite app_nil_r.
  - intros [Hit Hits]%andb_prop.
    unfold confidences_of. cbn [omap list_omap]. fold (confidences_of its).
    unfold confidence_step, carried_confidence in *.
    destruct (is_pronunciation it); simpl; [|by apply IH].
    destruct (default [] (alternatives it)) as [|a l]; simpl; [by apply IH|].
    destruct (alt_confidence a) as [c|]; simpl in *; [|by apply IH].
    destruct (numeric_value c) as [v|] eqn:Hv; [|done].
    apply float_numeric_value in Hv. rewrite Hv. simpl.
    rewrite IH by done. by rewrite <- app_assoc.
Qed.

(** Scenario 1 of the specification: the confidences 0.9 and 0.8 enter the
    average; the punctuation items do not count. *)
Example hello_world_confidence :
  _calculate_avg_confidence (items_of hello_world)
  = Ok (SumOverLen [float_of_Q (9 # 10); float_of_Q (8 # 10)]).
Proof. reflexivity. Qed.

(** Rounding shows in scenario 1: added from the left and divided by 2, the
    floats for 0.9 and 0.8 give 0.8500000000000001, one unit in the last
    place above the float for 0.85. *)
Example rounded_mean_of_scenario_1 :
  rounded_mean [float_of_Q (9 # 10); float_of_Q (8 # 10)]
  = S754_finite false 7656119366529844 (-53)
  /\ float_of_Q (85 # 100) = S754_finite false 7656119366529843 (-53).
Proof. split; vm_compute; reflexivity. Qed.

(** Scenario 4 of the specification: without items the average is 0.0. *)
Example no_items_confidence :
  _calculate_avg_confidence [] = Ok (Literal (S754_zero false)).
Proof. reflexivity. Qed.

(** ** Polling for the transcription job *)

Lemma checks_rounds (d : Z) (k : nat) : checks (rounds d k) = k.
Proof. unfold checks. induction k as [|k IH]; simpl; [done | by rewrite IH]. Qed.

Lemma checks_rounds_last (d : Z) (k : nat) :
  checks (rounds d k ++ [GetTranscriptionJob]) = S k.
Proof.
  unfold checks. rewrite List.filter_app, length_app.
  fold (checks (rounds d k)). rewrite checks_rounds. simpl. lia.
Qed.

(** The runs of the loop: either it sleeps after each of its [remaining]
    checks and times out, or it stops at a check whose reply ends the wait. *)
Lemma wait_loop_shape (job_name : string) (replies : nat -> JobReply) (d : Z) :
  (0 <= d)%Z ->
  forall remaining retry,
  exists k,
    (forall n, n < k -> keeps_waiting (replies (retry + n)) = true)
    /\ ((k = remaining
         /\ is_transcription_error
              (wait_loop job_name replies d remaining retry).1 = true
         /\ (wait_loop job_name replies d remaining retry).2 = rounds d k)
        \/ (k < remaining
            /\ (wait_loop job_name replies d remaining retry).2
               = rounds d k ++ [GetTranscriptionJob]
            /\ ((reports_completed (replies (retry + k)) = false
                 /\ is_transcription_error
                      (wait_loop job_name replies d remaining retry).1 = true)
                \/ (exists job,
                      (wait_loop job_name replies d remaining retry).1 = Ok job
                      /\ replies (retry + k) = Response job
                      /\ reports_completed (replies (retry + k)) = true)))).
Proof.
  intros Hd. induction remaining as [|remaining IH]; intros retry.
  - exists 0. split; [lia|]. left. done.
  - assert (forall rest : result TranscriptionJob * list Event,
               sleep_then d rest = (rest.1, Sleep d :: rest.2)) as Hsleep.
    { intros rest. unfold sleep_then.
      destruct (Z.ltb_spec d 0); [lia | done]. }
    simpl. destruct (replies retry) as [job|msg] eqn:Hreply.
    + destruct (String.eqb (TranscriptionJobStatus job) "COMPLETED") eqn:Hc.
      { exists 0. split; [lia|]. right. split; [lia|]. split; [done|]. right.
        exists job. rewrite Nat.add_0_r, Hreply. simpl. by rewrite Hc. }
      destruct (String.eqb (TranscriptionJobStatus job) "FAILED") eqn:Hf.
      { exists 0. split; [lia|]. right. split; [lia|]. split; [done|]. left.
        rewrite Nat.add_0_r, Hreply. simpl. by rewrite Hc. }
      assert (keeps_waiting (replies retry) = true) as Hkeep.
      { rewrite Hreply. simpl. by rewrite Hc, Hf. }
      destruct (IH (S retry)) as (k & Hbefore & Hrun). exists (S k). split.
      { intros [|n] Hn; [by rewrite Nat.add_0_r|].
        replace (retry + S n) with (S retry + n) by lia. apply Hbefore. lia. }
      replace (retry + S k) with (S retry + k) by lia.
      destruct (String.eqb (TranscriptionJobStatus job) "IN_PROGRESS");
        rewrite Hsleep; simpl;
        (destruct Hrun as [(-> & He & Ht) | (Hlt & Ht & Hout)];
         [left; by rewrite Ht
         |right; split; [lia|]; split; [by rewrite Ht | done]]).
    + exists 0. split; [lia|]. right. split; [lia|]. split; [done|]. left.
      rewrite Nat.add_0_r, Hreply. done.
Qed.

Lemma wait_loop_keeps_waiting job_name replies d remaining retry :
  (0 <= d)%Z ->
  keeps_waiting (replies retry) = true ->
  wait_loop job_name replies d (S remaining) retry
  = ((wait_loop job_name replies d remaining (S retry)).1,
     GetTranscriptionJob :: Sleep d
       :: (wait_loop job_name replies d remaining (S retry)).2).
Proof.
  intros Hd Hk. simpl. destruct (replies retry) as [job|msg]; [|done].
  simpl in Hk. apply andb_prop in Hk as [Hc Hf].
  apply negb_true_iff in Hc, Hf. rewrite Hc, Hf.
  unfold sleep_then. destruct (Z.ltb_spec d 0); [lia|].
  by destruct (String.eqb _ "IN_PROGRESS").
Qed.

Lemma wait_loop_decisive job_name replies d remaining retry :
  keeps_waiting (replies retry) = false ->
  wait_loop job_name replies d (S remaining) retry
  = (decisive_outcome (replies retry), [GetTranscriptionJob]).
Proof.
  intros Hk. simpl. unfold decisive_outcome.
  destruct (replies retry) as [job|msg]; [|done].
  simpl in Hk.
  destruct (String.eqb (TranscriptionJobStatus job) "COMPLETED"); [done|].
  by destruct (String.eqb (TranscriptionJobStatus job) "FAILED").
Qed.

Lemma wait_loop_rounds job_name replies d k :
  (0 <= d)%Z ->
  forall remaining retry,
    (forall n, n < k -> keeps_waiting (replies (retry + n)) = true) ->
    wait_loop job_name replies d (k + remaining) retry
    = ((wait_loop job_name replies d remaining (retry + k)).1,
       rounds d k ++ (wait_loop job_name replies d remaining (retry + k)).2).
Proof.
  intros Hd. induction k as [|k IH]; intros remaining retry Hk.
  - rewrite Nat.add_0_r. simpl. by destruct (wait_loop _ _ _ _ _).
  - change (S k + remaining) with (S (k + remaining)).
    rewrite wait_loop_keeps_waiting; [|done|].
    + rewrite IH.
      * replace (S retry + k) with (retry + S k) by lia. done.
      * intros n Hn. replace (S retry + n) with (retry + S n) by lia.
        apply Hk. lia.
    + rewrite <- (Nat.add_0_r retry). apply Hk. lia.
Qed.

Lemma wait_decisive (max_retries retry_delay : Z)
    (job_name : string) (replies : nat -> JobReply) (k : nat) :
  (0 <= retry_delay)%Z ->
  k < Z.to_nat max_retries ->
  (forall n, n < k -> keeps_waiting (replies n) = true) ->
  keeps_waiting (replies k) = false ->
  _wait_for_transcription_job max_retries retry_delay job_name replies
  = (decisive_outcome (replies k), rounds retry_delay k ++ [GetTranscriptionJob]).
Proof.
  intros Hd Hk Hbefore Hat. unfold _wait_for_transcription_job.
  replace (Z.to_nat max_retries) with (k + S (Z.to_nat max_retries - S k)) by lia.
  rewrite wait_loop_rounds by done.
  by rewrite wait_loop_decisive.
Qed.

(** All the checks of the budget are answered by a status that keeps the loop
    waiting: the loop sleeps after each of them and then gives up. *)
Lemma wait_exhausted (max_retries retry_delay : Z)
    (job_name : string) (replies : nat -> JobReply) :
  (0 <= retry_delay)%Z ->
  (forall n, n < Z.to_nat max_retries -> keeps_waiting (replies n) = true) ->
  _wait_for_transcription_job max_retries retry_delay job_name replies
  = (Raise (TranscriptionError
              ("Transcription job " +:+ job_name +:+
               " did not complete within the allowed time")),
     rounds retry_delay (Z.to_nat max_retries)).
Proof.
  intros Hd Hall. unfold _wait_for_transcription_job.
  rewrite <- (Nat.add_0_r (Z.to_nat max_retries)) at 1.
  rewrite wait_loop_rounds by done. simpl. by rewrite app_nil_r.
Qed.

(** The first reply within a budget that does not keep the loop waiting, or
    the budget itself when there is none. *)
Lemma first_decisive_reply (replies : nat -> JobReply) (budget : nat) :
  exists k,
    (forall n, n < k -> keeps_waiting (replies n) = true)
    /\ ((k < budget /\ keeps_waiting (replies k) = false) \/ k = budget).
Proof.
  induction budget as [|budget (k & Hbefore & [[Hlt Hat] | ->])].
  - exists 0. split; [lia | by right].
  - exists k. split; [done|]. left. split; [lia | done].
  - destruct (keeps_waiting (replies budget)) eqn:Hat.
    + exists (S budget). split; [|by right].
      intros n Hn. destruct (decide (n = budget)) as [-> | Hne]; [done|].
      apply Hbefore. lia.
    + exists budget. split; [done|]. left. split; [lia | done].
Qed.

Lemma decisive_outcome_error (reply : JobReply) :
  reports_completed reply = false ->
  is_transcription_error (decisive_outcome reply) = true.
Proof.
  destruct reply as [job|msg]; simpl; [|done]. by intros ->.
Qed.



(** Five checks, ten seconds apart, then the time-out. *)
Example wait_times_out :
  _wait_for_transcription_job 5 10 "job" always_in_progress
  = (Raise (TranscriptionError
              "Transcription job job did not complete within the allowed time"),
     rounds 10 5).
Proof. reflexivity. Qed.

Example wait_completes :
  _wait_for_transcription_job 5 10 "job" completes_at_third
  = (Ok {| TranscriptionJobStatus := "COMPLETED"; FailureReason := None |},
     rounds 10 2 ++ [GetTranscriptionJob]).
Proof. reflexivity. Qed.

(** ** The walk over the items *)

Section Walk.
Variable m : gmap string SpeakerEntry.

Lemma best_text_spoken item a l :
  default [] (alternatives item) = a :: l ->
  best_text item = default "" (content a).
Proof. unfold best_text. by intros ->. Qed.

(** The tracked walk is the walk of the code, with the items kept. *)
Lemma walk_step_erase (g : Tracked) (item : Item) :
  walk_step m (erase g) item = erase (tracked_step m g item).
Proof.
  unfold walk_step, tracked_step, spoken.
  destruct (is_pronunciation item); simpl; [|done].
  destruct (default [] (alternatives item)) as [|a l] eqn:Ealt; simpl;
    [|rewrite <- (best_text_spoken item a l Ealt)];
    (destruct (lookup_start m item) as [entry|];
     [unfold speaker_changed;
      destruct g as [turns [cur|] [|b buf]]; simpl;
      try destruct (String.eqb_spec (entry_speaker entry) cur) as [->|]|];
     unfold erase; simpl; rewrite ?map_app; done).
Qed.

Lemma walk_erase (its : list Item) (g : Tracked) :
  fold_left (walk_step m) its (erase g)
  = erase (fold_left (tracked_step m) its g).
Proof.
  revert g. induction its as [|it its IH]; intros g; simpl; [done|].
  by rewrite walk_step_erase, IH.
Qed.

Lemma walk_finish_erase (g : Tracked) :
  walk_finish (erase g) = map render (tracked_finish g).
Proof.
  unfold walk_finish, tracked_finish, last_segment_pending.
  destruct g as [turns [cur|] [|b buf]]; simpl; try done.
  destruct (String.eqb cur ""); simpl; [done|].
  by rewrite map_app.
Qed.

Lemma build_conversation_tracked (its : list Item) :
  build_conversation m its = map render (tracked_conversation m its).
Proof.
  unfold build_conversation, tracked_conversation.
  change walk_init with (erase tracked_init).
  by rewrite walk_erase, walk_finish_erase.
Qed.
End Walk.

(** ** What the walk maintains *)

Section WalkInvariant.
Variable m : gmap string SpeakerEntry.

Lemma filter_spoken_snoc (seen : list Item) (it : Item) :
  List.filter spoken (seen ++ [it])
  = List.filter spoken seen ++ (if spoken it then [it] else []).
Proof. rewrite List.filter_app. simpl. by destruct (spoken it). Qed.

Lemma walk_inv_init : walk_inv m [] tracked_init.
Proof.
  split; simpl; try done; try by constructor.
Qed.

Lemma agrees_snoc spk its it :
  agrees m spk its ->
  (forall s, resolved_speaker m it = Some s -> s = spk) ->
  agrees m spk (its ++ [it]).
Proof. intros H1 H2. apply Forall_app. split; [done|]. by constructor. Qed.

Lemma unresolved_agrees spk its :
  Forall (fun it => resolved_speaker m it = None) its -> agrees m spk its.
Proof.
  intros H. unfold agrees. eapply Forall_impl; [exact H|].
  simpl. intros it -> s [=].
Qed.

(** Appending the item to the buffer, when it is spoken. *)
Lemma walk_inv_append seen g it :
  concat (map snd (tracked_turns g)) ++ tracked_buffer g
  = List.filter spoken seen ->
  Forall (fun grp => grp.2 <> []) (tracked_turns g) ->
  Forall (fun grp => agrees m grp.1 grp.2) (tracked_turns g) ->
  match tracked_speaker g with
  | Some cur =>
      agrees m cur (tracked_buffer g)
      /\ (forall s, resolved_speaker m it = Some s -> s = cur)
      /\ exists it0, In it0 (seen ++ [it]) /\ is_pronunciation it0 = true
                     /\ resolved_speaker m it0 = Some cur
  | None =>
      Forall (fun it0 => resolved_speaker m it0 = None) (tracked_buffer g)
      /\ resolved_speaker m it = None
      /\ tracked_turns g = []
      /\ Forall (fun it0 => is_pronunciation it0 = true ->
                            resolved_speaker m it0 = None) seen
  end ->
  walk_inv m (seen ++ [it])
    (if spoken it then
       {| tracked_turns := tracked_turns g;
          tracked_speaker := tracked_speaker g;
          tracked_buffer := tracked_buffer g ++ [it] |}
     else g).
Proof.
  intros Ho Hn Ha Hcur.
  destruct (tracked_speaker g) as [cur|] eqn:E.
  - destruct Hcur as (Hb & Hit & Hex).
    split; rewrite ?filter_spoken_snoc; destruct (spoken it); simpl;
      rewrite ?E, ?app_nil_r, ?app_assoc; try done; try congruence.
    + by apply agrees_snoc.
    + by intros s [= <-].
    + by intros s [= <-].
  - destruct Hcur as (Hb & Hit & Ht & Hall).
    assert (Forall (fun it0 => is_pronunciation it0 = true ->
                               resolved_speaker m it0 = None) (seen ++ [it])).
    { apply Forall_app. split; [done|]. constructor; [|done]. by intros _. }
    split; rewrite ?filter_spoken_snoc; destruct (spoken it); simpl;
      rewrite ?E, ?app_nil_r, ?app_assoc; try done; try congruence.
    apply Forall_app. split; [done|]. by constructor.
Qed.

Lemma walk_inv_step seen g it :
  walk_inv m seen g -> walk_inv m (seen ++ [it]) (tracked_step m g it).
Proof.
  intros [Ho Hn Ha Hb Hns Hs]. unfold tracked_step.
  destruct (is_pronunciation it) eqn:Hp; simpl.
  - destruct (lookup_start m it) as [entry|] eqn:Hl.
    + assert (resolved_speaker m it = Some (entry_speaker entry)) as Hr
        by (unfold resolved_speaker; by rewrite Hl).
      assert (exists it0, In it0 (seen ++ [it]) /\ is_pronunciation it0 = true
                /\ resolved_speaker m it0 = Some (entry_speaker entry)) as Hex.
      { exists it. split; [|done]. apply in_or_app. right. by left. }
      set (spk := entry_speaker entry) in *.
      assert (forall s, resolved_speaker m it = Some s -> s = spk) as Hit
        by (intros s; rewrite Hr; congruence).
      destruct g as [turns [cur|] [|b buf]]; simpl in *.
      * apply (walk_inv_append seen (Build_Tracked turns (Some spk) []) it);
          simpl; try done.
        split; [constructor | done].
      * destruct (String.eqb_spec spk cur) as [Heq|Hne].
        -- apply (walk_inv_append seen (Build_Tracked turns (Some cur) (b :: buf)) it);
             simpl; try done.
           destruct Heq. done.
        -- apply (walk_inv_append seen
                    (Build_Tracked (turns ++ [(cur, b :: buf)]) (Some spk) []) it);
             simpl.
           ++ rewrite map_app, concat_app. simpl. by rewrite !app_nil_r.
           ++ apply Forall_app. split; [done|]. by constructor.
           ++ apply Forall_app. split; [done|]. by constructor.
           ++ split; [constructor | done].
      * apply (walk_inv_append seen (Build_Tracked turns (Some spk) []) it);
          simpl; try done.
        split; [constructor | done].
      * apply (walk_inv_append seen (Build_Tracked turns (Some spk) (b :: buf)) it);
          simpl; try done.
        split; [by apply unresolved_agrees | done].
    + assert (resolved_speaker m it = None) as Hr
        by (unfold resolved_speaker; by rewrite Hl).
      apply walk_inv_append; try done.
      destruct (tracked_speaker g) as [cur|].
      * split; [done|]. split; [by rewrite Hr|].
        destruct (Hs cur eq_refl) as (it0 & Hin & H). exists it0.
        split; [|done]. apply in_or_app. by left.
      * destruct (Hns eq_refl) as [Ht Hall]. done.
  - split; rewrite ?filter_spoken_snoc; unfold spoken; rewrite ?Hp; simpl;
      rewrite ?app_nil_r; try done.
    + intros E. destruct (Hns E) as [Ht Hall]. split; [done|].
      apply Forall_app. split; [done|]. constructor; [|done]. congruence.
    + intros s E. destruct (Hs s E) as (it0 & Hin & H). exists it0.
      split; [|done]. apply in_or_app. by left.
Qed.

Lemma walk_inv_fold its seen g :
  walk_inv m seen g ->
  walk_inv m (seen ++ its) (fold_left (tracked_step m) its g).
Proof.
  revert seen g. induction its as [|it its IH]; intros seen g H; simpl.
  - by rewrite app_nil_r.
  - replace (seen ++ it :: its) with ((seen ++ [it]) ++ its)
      by (by rewrite <- app_assoc).
    apply IH. by apply walk_inv_step.
Qed.

Lemma walk_inv_items its :
  walk_inv m its (fold_left (tracked_step m) its tracked_init).
Proof. apply (walk_inv_fold its [] tracked_init), walk_inv_init. Qed.

(** No pronunciation item resolves: no turn at all. *)
Lemma tracked_conversation_unresolved its :
  (forall it, In it its -> is_pronunciation it = true ->
              resolved_speaker m it = None) ->
  tracked_conversation m its = [].
Proof.
  intros Hnone. unfold tracked_conversation, tracked_finish.
  destruct (walk_inv_items its) as [_ _ _ _ Hns Hs].
  destruct (tracked_speaker _) as [cur|].
  - destruct (Hs cur eq_refl) as (it & Hin & Hp & Hr).
    by rewrite (Hnone it Hin Hp) in Hr.
  - by destruct (Hns eq_refl) as [-> _].
Qed.

(** Every turn has an item, holds spoken items of the input only, and every
    resolved item in it resolves to the speaker of the turn. *)
Lemma tracked_conversation_turns its grp :
  In grp (tracked_conversation m its) ->
  grp.2 <> [] /\ agrees m grp.1 grp.2
  /\ forall it, In it grp.2 -> In it its /\ spoken it = true.
Proof.
  unfold tracked_conversation, tracked_finish.
  destruct (walk_inv_items its) as [Ho Hn Ha Hb _ _].
  set (g := fold_left (tracked_step m) its tracked_init) in *.
  assert (forall it, In it (concat (map snd (tracked_turns g)) ++ tracked_buffer g) ->
                     In it its /\ spoken it = true) as Hmem.
  { intros it. rewrite Ho. apply List.filter_In. }
  assert (In grp (tracked_turns g) ->
          grp.2 <> [] /\ agrees m grp.1 grp.2
          /\ forall it, In it grp.2 -> In it its /\ spoken it = true) as Hturn.
  { intros Hin. rewrite List.Forall_forall in Hn, Ha.
    split; [by apply Hn|]. split; [by apply Ha|].
    intros it Hit. apply Hmem, in_or_app. left.
    apply in_concat. exists grp.2. split; [|done]. by apply in_map. }
  destruct (tracked_speaker g) as [cur|]; [|done].
  destruct (tracked_buffer g) as [|b buf] eqn:Eb; [done|].
  destruct (String.eqb cur ""); [done|].
  intros [Hin | [<- | []]]%in_app_or; [by apply Hturn|].
  simpl. split; [done|]. split; [done|].
  intros it Hit. apply Hmem, in_or_app. by right.
Qed.

(** When the walk ends with a non-empty speaker label, the turns hold all
    the spoken items, in order. *)
Lemma tracked_conversation_all its :
  (forall it s, resolved_speaker m it = Some s -> s <> "") ->
  (exists it, In it its /\ is_pronunciation it = true
              /\ is_Some (resolved_speaker m it)) ->
  concat (map snd (tracked_conversation m its)) = List.filter spoken its.
Proof.
  intros Hlabel (it & Hin & Hp & Hr).
  unfold tracked_conversation, tracked_finish.
  destruct (walk_inv_items its) as [Ho _ _ _ Hns Hs].
  set (g := fold_left (tracked_step m) its tracked_init) in *.
  destruct (tracked_speaker g) as [cur|].
  - destruct (tracked_buffer g) as [|b buf].
    + by rewrite app_nil_r in Ho.
    + destruct (Hs cur eq_refl) as (it0 & _ & _ & Hr0).
      destruct (String.eqb_spec cur "") as [->|_]; [by apply Hlabel in Hr0|].
      rewrite map_app, concat_app. simpl. by rewrite app_nil_r.
  - destruct (Hns eq_refl) as [_ Hall]. rewrite List.Forall_forall in Hall.
    rewrite (Hall it Hin Hp) in Hr. by destruct Hr.
Qed.
End WalkInvariant.

(** ** Joining words *)

Lemma string_app_assoc (a b c : string) : (a +:+ b) +:+ c = a +:+ b +:+ c.
Proof.
  induction a as [|x a IH]; [reflexivity|].
  change (String x ((a +:+ b) +:+ c) = String x (a +:+ b +:+ c)). by f_equal.
Qed.

Lemma join_cons (sep x : string) (l : list string) :
  l <> [] -> join sep (x :: l) = x +:+ sep +:+ join sep l.
Proof. by destruct l. Qed.

Lemma join_app (sep : string) (l1 l2 : list string) :
  l1 <> [] -> l2 <> [] ->
  join sep (l1 ++ l2) = join sep l1 +:+ sep +:+ join sep l2.
Proof.
  intros H1 H2. induction l1 as [|x l1 IH]; [done|].
  destruct l1 as [|y l1].
  - simpl app. by rewrite join_cons.
  - change ((x :: y :: l1) ++ l2) with (x :: ((y :: l1) ++ l2)).
    rewrite join_cons by done. rewrite IH by done.
    rewrite (join_cons sep x (y :: l1)) by done.
    by rewrite !string_app_assoc.
Qed.

(** Joining non-empty groups of words one by one, then joining the results,
    gives the same text as joining all the words. *)
Lemma join_groups (sep : string) (ls : list (list string)) :
  Forall (fun l => l <> []) ls ->
  join sep (map (join sep) ls) = join sep (concat ls).
Proof.
  induction 1 as [|l ls Hl Hls IH]; [done|].
  destruct ls as [|l' ls].
  - simpl. by rewrite app_nil_r.
  - change (map (join sep) (l :: l' :: ls))
      with (join sep l :: map (join sep) (l' :: ls)).
    rewrite join_cons by done. rewrite IH.
    change (concat (l :: l' :: ls)) with (l ++ concat (l' :: ls)).
    rewrite join_app; [done | done |].
    inversion Hls as [|? ? Hl' _]; subst. simpl. by destruct l'.
Qed.

(** ** Segments, lookup and items *)

(** An item resolves in the lookup exactly when a segment claims its start
    time. *)
Lemma claimed_resolves segs m it :
  build_word_speaker_map segs = Ok m ->
  claimed segs it <-> is_Some (resolved_speaker m it).
Proof.
  intros Hm. unfold claimed, resolved_speaker, lookup_start.
  destruct (start_time it) as [t|].
  - rewrite fmap_is_Some, (word_speaker_map_dom segs m t Hm).
    split; [by intros (t' & [= <-] & H) | intros H; by exists t].
  - split; [by intros (t' & [=] & _) | by intros [? [=]]].
Qed.

Lemma unclaimed_unresolved segs m it :
  build_word_speaker_map segs = Ok m ->
  ~ claimed segs it -> resolved_speaker m it = None.
Proof.
  intros Hm Hn. rewrite (claimed_resolves segs m it Hm) in Hn.
  destruct (resolved_speaker m it); [|done]. destruct Hn. by eexists.
Qed.

Lemma resolved_label_nonempty segs m it s :
  build_word_speaker_map segs = Ok m ->
  (forall seg, In seg segs -> speaker_label seg <> Some "") ->
  resolved_speaker m it = Some s -> s <> "".
Proof.
  intros Hm Hlabels. unfold resolved_speaker, lookup_start.
  destruct (start_time it) as [t|]; [|done].
  destruct (m !! t) as [e|] eqn:He; [|done]. intros [= <-] Hempty.
  destruct (word_speaker_map_speaker segs m t e Hm He) as (seg & Hin & Hl).
  apply (Hlabels seg Hin). by rewrite Hl, Hempty.
Qed.

(** The conversation of a well-typed payload with segments. *)
Lemma process_conversation (td : TranscriptData) :
  well_typed td = true ->
  segments_of td <> [] ->
  exists r m,
    _process_transcript td = Ok r
    /\ build_word_speaker_map (segments_of td) = Ok m
    /\ conversation r = Some (map render (tracked_conversation m (items_of td)))
    /\ transcript r
       = join newline
           (map format_turn (map render (tracked_conversation m (items_of td)))).
Proof.
  intros Hwt Hseg. destruct (process_returns td Hwt) as [r Hr].
  destruct (process_with_segments td r Hseg Hr) as (m & n & Hm & Hc & Ht & _).
  exists r, m. rewrite <- build_conversation_tracked. done.
Qed.

(** ** The conversation *)

(** C10. With speaker segments present, if no pronunciation item starts at a
    start time that a segment claims, the conversation is the empty list
    (present, not absent): the current speaker is never set, so no turn is
    emitted and the words gathered in the buffer are dropped. *)
Theorem unresolved_items_give_empty_conversation (td : TranscriptData) :
  well_typed td = true ->
  segments_of td <> [] ->
  (forall it, In it (items_of td) -> is_pronunciation it = true ->
              ~ claimed (segments_of td) it) ->
  exists r,
    _process_transcript td = Ok r
    /\ conversation r = Some []
    /\ transcript r = "".
Proof.
  intros Hwt Hseg Hnone.
  destruct (process_conversation td Hwt Hseg) as (r & m & Hr & Hm & Hc & Ht).
  exists r. split; [done|].
  assert (tracked_conversation m (items_of td) = []) as Hempty.
  { apply tracked_conversation_unresolved. intros it Hin Hp.
    apply (unclaimed_unresolved _ m it Hm). by apply Hnone. }
  rewrite Hempty in Hc, Ht. done.
Qed.

Lemma unresolved_items_give_empty_conversation_witness :
  well_typed nothing_claimed = true
  /\ segments_of nothing_claimed <> []
  /\ exists r,
       _process_transcript nothing_claimed = Ok r
       /\ conversation r = Some []
       /\ transcript r = "".
Proof.
  split; [reflexivity|]. split; [discriminate|].
  apply (unresolved_items_give_empty_conversation nothing_claimed).
  - reflexivity.
  - discriminate.
  - intros it [<- | [<- | []]] _ (t & [= <-] & [Heq | []]); discriminate Heq.
Defined.

(** C4, as the specification states it, fails: in a payload whose first word
    "um" is claimed by no segment, the only turn is ["um Hi"] of [spk_0],
    and it is not made of items that all resolve to [spk_0]. *)
Lemma turn_words_need_not_resolve :
  ~ (forall td r m conv turn,
        well_typed td = true ->
        _process_transcript td = Ok r ->
        build_word_speaker_map (segments_of td) = Ok m ->
        conversation r = Some conv ->
        In turn conv ->
        exists its,
          its <> []
          /\ text turn = join " " (map best_text its)
          /\ forall it, In it its ->
                        In it (items_of td)
                        /\ resolved_speaker m it = Some (speaker turn)).
Proof.
  intros H.
  edestruct (H unclaimed_first) as (its & Hne & Ht & Hall);
    [reflexivity | reflexivity | reflexivity | reflexivity
    | left; reflexivity |].
  destruct its as [|it its]; [done|].
  destruct (Hall it (or_introl eq_refl)) as [[<- | [<- | []]] Hr].
  - vm_compute in Hr. discriminate Hr.
  - apply (f_equal (String.get 0)) in Ht.
    destruct its; vm_compute in Ht; discriminate Ht.
Qed.

(** C4, amended. Every turn of the conversation is made of at least one
    pronunciation item of the input, its text being their best texts joined
    by single spaces, and has one speaker: every item of the turn that
    resolves in the lookup resolves to the speaker of the turn.  (Items that
    do not resolve may be part of the turn.) *)
Theorem turns_have_words_and_one_speaker (td : TranscriptData) :
  well_typed td = true ->
  segments_of td <> [] ->
  exists r m conv,
    _process_transcript td = Ok r
    /\ build_word_speaker_map (segments_of td) = Ok m
    /\ conversation r = Some conv
    /\ forall turn, In turn conv ->
         exists its,
           its <> []
           /\ text turn = join " " (map best_text its)
           /\ forall it, In it its ->
                In it (items_of td) /\ spoken it = true
                /\ forall s, resolved_speaker m it = Some s -> s = speaker turn.
Proof.
  intros Hwt Hseg.
  destruct (process_conversation td Hwt Hseg) as (r & m & Hr & Hm & Hc & _).
  exists r, m, (map render (tracked_conversation m (items_of td))).
  split; [done|]. split; [done|]. split; [done|].
  intros turn (grp & <- & Hin)%in_map_iff.
  destruct (tracked_conversation_turns m _ grp Hin) as (Hne & Hag & Hmem).
  exists grp.2. split; [done|]. split; [done|].
  intros it Hit. destruct (Hmem it Hit) as [H1 H2].
  split; [done|]. split; [done|].
  unfold agrees in Hag. rewrite List.Forall_forall in Hag. by apply Hag.
Qed.

Lemma turns_have_words_and_one_speaker_witness :
  well_typed unclaimed_first = true
  /\ segments_of unclaimed_first <> []
  /\ exists r m conv,
       _process_transcript unclaimed_first = Ok r
       /\ build_word_speaker_map (segments_of unclaimed_first) = Ok m
       /\ conversation r = Some conv
       /\ forall turn, In turn conv ->
            exists its,
              its <> []
              /\ text turn = join " " (map best_text its)
              /\ forall it, In it its ->
                   In it (items_of unclaimed_first) /\ spoken it = true
                   /\ forall s, resolved_speaker m it = Some s ->
                                s = speaker turn.
Proof.
  split; [reflexivity|]. split; [discriminate|].
  apply (turns_have_words_and_one_speaker unclaimed_first);
    [reflexivity | discriminate].
Defined.

(** The texts of the turns, joined, are the best texts of all the items of
    the turns, joined. *)
Lemma conversation_text (m : gmap string SpeakerEntry) (its : list Item) :
  join " " (map text (map render (tracked_conversation m its)))
  = join " " (map best_text (concat (map snd (tracked_conversation m its)))).
Proof.
  rewrite concat_map, <- join_groups.
  - by rewrite !map_map.
  - apply List.Forall_forall. intros ws (l & <- & (grp & <- & Hin)%in_map_iff)%in_map_iff.
    destruct (tracked_conversation_turns m its grp Hin) as (Hne & _).
    by destruct grp.2.
Qed.

(** C3, as the specification states it, fails: the word "um", which no
    segment claims, is part of the turn ["Hi um there"], while the resolved
    words alone read ["Hi there"]. *)
Lemma conversation_text_is_not_resolved_words :
  ~ (forall td r m conv,
        well_typed td = true ->
        segments_of td <> [] ->
        _process_transcript td = Ok r ->
        build_word_speaker_map (segments_of td) = Ok m ->
        conversation r = Some conv ->
        join " " (map text conv)
        = join " " (map best_text
                      (List.filter (fun it => is_pronunciation it && resolves m it)
                                   (items_of td)))).
Proof.
  intros H.
  assert (segments_of unclaimed_middle <> []) as Hseg by discriminate.
  specialize (H unclaimed_middle _ _ _ eq_refl Hseg eq_refl eq_refl eq_refl).
  vm_compute in H. discriminate H.
Qed.

(** C3, amended. For a well-typed payload with speaker segments whose labels
    are non-empty strings, in which some pronunciation item starts at a start
    time that a segment claims: the texts of the conversation turns, joined in
    order by single spaces, are the best texts of all the pronunciation items
    that have an alternative, in item order, whether their start time
    resolves in the lookup or not. *)
Theorem conversation_text_all_spoken_words (td : TranscriptData) :
  well_typed td = true ->
  segments_of td <> [] ->
  (forall seg, In seg (segments_of td) -> speaker_label seg <> Some "") ->
  (exists it, In it (items_of td) /\ is_pronunciation it = true
              /\ claimed (segments_of td) it) ->
  exists r conv,
    _process_transcript td = Ok r
    /\ conversation r = Some conv
    /\ join " " (map text conv)
       = join " " (map best_text (List.filter spoken (items_of td))).
Proof.
  intros Hwt Hseg Hlabels (it & Hin & Hp & Hcl).
  destruct (process_conversation td Hwt Hseg) as (r & m & Hr & Hm & Hc & _).
  exists r, (map render (tracked_conversation m (items_of td))).
  split; [done|]. split; [done|].
  rewrite conversation_text, tracked_conversation_all; [done | |].
  - intros it0 s. by apply (resolved_label_nonempty _ m it0 s Hm).
  - exists it. split; [done|]. split; [done|].
    by apply (claimed_resolves _ m it Hm).
Qed.

Lemma conversation_text_all_spoken_words_witness :
  well_typed unclaimed_middle = true
  /\ segments_of unclaimed_middle <> []
  /\ exists r conv,
       _process_transcript unclaimed_middle = Ok r
       /\ conversation r = Some conv
       /\ join " " (map text conv)
          = join " " (map best_text
                        (List.filter spoken (items_of unclaimed_middle))).
Proof.
  split; [reflexivity|]. split; [discriminate|].
  apply (conversation_text_all_spoken_words unclaimed_middle).
  - reflexivity.
  - discriminate.
  - intros seg [<- | []]. discriminate.
  - exists (word "Hi" "0.0" 1). split; [by left|]. split; [reflexivity|].
    exists "0.0". split; [reflexivity | by left].
Defined.




(** ** Scenarios *)

(** Scenario 2 of the specification. *)
Example two_speakers_conversation :
  exists r,
    _process_transcript two_speakers = Ok r
    /\ conversation r = Some [{| speaker := "spk_0"; text := "Hi there" |};
                              {| speaker := "spk_1"; text := "Hello" |}]
    /\ speakers_identified (metadata r) = 2%nat.
Proof. eexists. split; [reflexivity|]. split; reflexivity. Qed.

(** The last turn is emitted only for a speaker label that is truthy: with
    the empty string as label, the resolved word is dropped. *)
Example empty_label_drops_the_turn :
  exists r,
    _process_transcript empty_label = Ok r /\ conversation r = Some [].
Proof. eexists. split; reflexivity. Qed.

(** * Further properties *)

(** ** When [_process_transcript] raises *)

Lemma for_each_ok_inv {A S} (body : S -> A -> result S) (l : list A) (s s' : S) :
  for_each body l s = Ok s' ->
  Forall (fun x => exists s0 s1, body s0 x = Ok s1) l.
Proof.
  revert s. induction l as [|x l IH]; intros s; simpl; [by constructor|].
  destruct (body s x) as [s1|] eqn:E; simpl; [|done].
  intros H. constructor; [by exists s, s1 | by apply (IH s1)].
Qed.

Lemma build_ok_entries (segs : list Segment) (m : gmap string SpeakerEntry) :
  build_word_speaker_map segs = Ok m ->
  Forall (fun seg =>
            forallb (fun it => present (seg_start_time it) && present (seg_end_time it))
                    (default [] (seg_items seg)) = true) segs.
Proof.
  intros H. apply for_each_ok_inv in H.
  eapply Forall_impl; [exact H|]. simpl.
  intros seg (m0 & m1 & Hseg). unfold word_speaker_map_segment in Hseg.
  apply for_each_ok_inv in Hseg. apply forallb_forall.
  intros it Hit. rewrite List.Forall_forall in Hseg.
  destruct (Hseg it Hit) as (m2 & m3 & Hstep).
  apply word_speaker_map_step_inv in Hstep as (l & e & s & _ & -> & -> & _).
  done.
Qed.

Lemma count_speakers_ok_labels (segs : list Segment) (n : nat) :
  count_speakers segs = Ok n ->
  Forall (fun seg => present (speaker_label seg) = true) segs.
Proof.
  unfold count_speakers. destruct (for_each _ _ _) as [labels|] eqn:E; [|done].
  intros _. apply for_each_ok_inv in E.
  eapply Forall_impl; [exact E|]. simpl.
  intros seg (acc & acc' & H). by destruct (speaker_label seg).
Qed.

Lemma float_ok_numeric (c : Scalar) (v : float64) :
  float c = Ok v -> numeric (Some c) = true.
Proof. intros H%float_numeric_value. simpl. by rewrite H. Qed.

Lemma confidence_loop_ok (its : list Item) (acc vals : list float64) :
  for_each confidence_step its acc = Ok vals ->
  forallb (fun it => numeric (carried_confidence it)) its = true.
Proof.
  intros H. apply for_each_ok_inv in H. apply forallb_forall.
  intros it Hit. rewrite List.Forall_forall in H.
  destruct (H it Hit) as (a0 & a1 & Hstep). revert Hstep.
  unfold confidence_step, carried_confidence.
  destruct (is_pronunciation it); [|done].
  destruct (default [] (alternatives it)) as [|a l]; [done|].
  destruct (alt_confidence a) as [c|]; [|done].
  destruct (float c) as [v|] eqn:Hv; [|done].
  intros _. by apply (float_ok_numeric c v).
Qed.

Lemma processable_returns (td : TranscriptData) :
  processable td = true -> exists r, _process_transcript td = Ok r.
Proof.
  unfold processable. intros [[Hsegs Hdur]%andb_prop Hits]%andb_prop.
  destruct (build_word_speaker_map_total _ Hsegs) as [m Hm].
  destruct (count_speakers_total _ Hsegs) as [n Hn].
  destruct (numeric_float _ (JInt 0) Hdur eq_refl) as [d Hd].
  assert (exists r, process_body td = Ok r) as [r Hr].
  { unfold process_body. fold (transcripts_of td) (items_of td) (segments_of td).
    unfold _calculate_avg_confidence.
    rewrite Hm, Hn, Hd, (confidence_loop _ [] Hits).
    destruct (is_empty (segments_of td)); simpl; by eexists. }
  exists r. by apply process_ok.
Qed.

Lemma returns_processable (td : TranscriptData) (r : Processed) :
  _process_transcript td = Ok r -> processable td = true.
Proof.
  intros Hr. apply process_ok in Hr. revert Hr.
  unfold process_body, processable.
  fold (transcripts_of td) (items_of td) (segments_of td).
  destruct (is_empty (segments_of td)) eqn:Hempty.
  - apply is_empty_nil in Hempty. rewrite Hempty.
    cbn [is_empty forallb andb mbind result_bind mret result_ret].
    destruct (float _) as [d|] eqn:Hd; cbn [mbind result_bind]; [|done].
    unfold _calculate_avg_confidence.
    destruct (for_each confidence_step _ _) as [vals|] eqn:E;
      cbn [mbind result_bind]; [|done].
    intros _. apply confidence_loop_ok in E. rewrite E, andb_true_r.
    destruct (audio_duration (get_results td)) as [c|]; [|done].
    by apply (float_ok_numeric c d).
  - destruct (build_word_speaker_map _) as [m|] eqn:Hm; simpl; [|done].
    destruct (float _) as [d|] eqn:Hd; simpl; [|done].
    unfold _calculate_avg_confidence.
    destruct (for_each confidence_step _ _) as [vals|] eqn:E; simpl; [|done].
    destruct (count_speakers _) as [n|] eqn:Hn; simpl; [|done].
    intros _. apply confidence_loop_ok in E. rewrite E.
    apply build_ok_entries in Hm. apply count_speakers_ok_labels in Hn.
    assert (numeric (audio_duration (get_results td)) = true) as ->.
    { destruct (audio_duration (get_results td)) as [c|]; [|done].
      by apply (float_ok_numeric c d). }
    rewrite andb_true_r. simpl. rewrite andb_true_r.
    apply forallb_forall. intros seg Hseg.
    rewrite List.Forall_forall in Hm, Hn.
    unfold well_typed_segment. by rewrite (Hn seg Hseg), (Hm seg Hseg).
Qed.


(** ** More on the average confidence *)

Lemma confidence_loop_pronunciation (its : list Item) (acc : list float64) :
  for_each confidence_step its acc
  = for_each confidence_step (List.filter is_pronunciation its) acc.
Proof.
  revert acc. induction its as [|it its IH]; intros acc; [done|].
  cbn [for_each List.filter]. destruct (is_pronunciation it) eqn:Hp.
  - cbn [for_each]. destruct (confidence_step acc it); simpl; [apply IH | done].
  - assert (confidence_step acc it = Ok acc) as ->
      by (unfold confidence_step; by rewrite Hp).
    apply IH.
Qed.

(** X2. Items that are no pronunciation (punctuation, items without a type)
    never change the average confidence, nor whether it can be computed:
    dropping them from the list gives the same outcome. *)
Theorem calculate_avg_confidence_pronunciation_only (its : list Item) :
  _calculate_avg_confidence its
  = _calculate_avg_confidence (List.filter is_pronunciation its).
Proof.
  unfold _calculate_avg_confidence. by rewrite confidence_loop_pronunciation.
Qed.

Lemma float_conversion_error (c : Scalar) (e : exn) :
  conversion_error c = Some e -> float c = Raise e.
Proof.
  destruct c as [y|n|b|y|msg|msg]; cbn [float conversion_error];
    try congruence.
  unfold in_float_range. destruct (float_of_int n); cbn; congruence.
Qed.

Lemma confidence_loop_raises (before after : list Item) (it : Item)
    (c : Scalar) (e : exn) (acc : list float64) :
  forallb (fun it => numeric (carried_confidence it)) before = true ->
  carried_confidence it = Some c ->
  conversion_error c = Some e ->
  for_each confidence_step (before ++ it :: after) acc = Raise e.
Proof.
  intros Hbefore Hc He. rewrite for_each_app, (confidence_loop before acc Hbefore).
  cbn [mbind result_bind for_each].
  assert (forall vals, confidence_step vals it = Raise e) as ->; [|done].
  intros vals. revert Hc. unfold confidence_step, carried_confidence.
  destruct (is_pronunciation it); [|done].
  destruct (default [] (alternatives it)) as [|a l]; [done|].
  intros ->. by rewrite (float_conversion_error c e He).
Qed.

(** X3. When [float] does not convert the confidence that some pronunciation
    item carries in its first alternative, [_calculate_avg_confidence]
    returns no average: it raises what [float] raises on the first such
    confidence in item order, a [ValueError] for a string that spells no
    float, an [OverflowError] for an integer beyond the range of a float, a
    [TypeError] for null. *)
Theorem calculate_avg_confidence_raises (before after : list Item) (it : Item)
    (c : Scalar) (e : exn) :
  forallb (fun it => numeric (carried_confidence it)) before = true ->
  carried_confidence it = Some c ->
  conversion_error c = Some e ->
  _calculate_avg_confidence (before ++ it :: after) = Raise e.
Proof.
  intros Hbefore Hc He. unfold _calculate_avg_confidence.
  by rewrite (confidence_loop_raises before after it c e [] Hbefore Hc He).
Qed.

Lemma calculate_avg_confidence_raises_witness :
  _calculate_avg_confidence (items_of garbled_confidence)
  = Raise (ValueError "could not convert string to float: 'n/a'").
Proof.
  apply (calculate_avg_confidence_raises
           [word "Hi" "0.0" 1] []
           {| type := Some "pronunciation"; start_time := Some "1.0";
              alternatives :=
                Some [{| content := Some "there";
                         alt_confidence :=
                           Some (JText "could not convert string to float: 'n/a'") |}] |}
           (JText "could not convert string to float: 'n/a'"));
    reflexivity.
Defined.

(** X29. When every confidence that is read stands for a float,
    [_calculate_avg_confidence] returns the literal 0.0 if no pronunciation
    item carries a confidence in its first alternative, and otherwise the
    quotient [sum(values) / len(values)] of exactly the carried confidences,
    converted by [float], in item order. *)
Theorem calculate_avg_confidence_values (its : list Item) :
  forallb (fun it => numeric (carried_confidence it)) its = true ->
  _calculate_avg_confidence its
  = Ok (match confidences_of its with
        | [] => Literal (S754_zero false)
        | _ :: _ => SumOverLen (confidences_of its)
        end).
Proof.
  intros Hnum. unfold _calculate_avg_confidence.
  by rewrite (confidence_loop its [] Hnum).
Qed.

Lemma calculate_avg_confidence_values_witness :
  _calculate_avg_confidence (items_of hello_world)
  = Ok (match confidences_of (items_of hello_world) with
        | [] => Literal (S754_zero false)
        | _ :: _ => SumOverLen (confidences_of (items_of hello_world))
        end).
Proof.
  apply (calculate_avg_confidence_values (items_of hello_world)). reflexivity.
Defined.

(** ** More on the lookup *)

(** The last segment that claims a start time. *)
Lemma last_claiming_segment (segs : list Segment) (t : string) :
  In t (segment_start_times segs) ->
  exists before seg after,
    segs = before ++ seg :: after
    /\ In t (starts (default [] (seg_items seg)))
    /\ ~ In t (segment_start_times after).
Proof.
  induction segs as [|seg segs IH]; simpl; [done|].
  intros Hin. destruct (decide (t ∈ segment_start_times segs)) as [Hlater|Hlater].
  - apply list_elem_of_In in Hlater.
    destruct (IH Hlater) as (before & seg' & after & -> & H1 & H2).
    by exists (seg :: before), seg', after.
  - rewrite list_elem_of_In in Hlater.
    apply in_app_or in Hin as [Hin|Hin]; [|done].
    by exists [], seg, segs.
Qed.

(** X4. The keys of the lookup built from well-typed segments are exactly
    the start times that the segments claim, and each is mapped to the
    speaker label of a segment that claims it. *)
Theorem word_speaker_map_keys_and_speakers (segs : list Segment) :
  forallb well_typed_segment segs = true ->
  exists m,
    build_word_speaker_map segs = Ok m
    /\ forall t,
         (is_Some (m !! t) <-> In t (segment_start_times segs))
         /\ forall e, m !! t = Some e ->
              exists seg, In seg segs
                          /\ In t (starts (default [] (seg_items seg)))
                          /\ speaker_label seg = Some (entry_speaker e).
Proof.
  intros Hwt. destruct (build_word_speaker_map_total segs Hwt) as [m Hm].
  exists m. split; [done|]. intros t.
  split; [by apply word_speaker_map_dom|].
  intros e He.
  assert (In t (segment_start_times segs)) as Hin.
  { apply (word_speaker_map_dom segs m t Hm). by eexists. }
  destruct (last_claiming_segment segs t Hin) as (before & seg & after & -> & H1 & H2).
  exists seg. split; [apply in_or_app; right; by left|]. split; [done|].
  unfold build_word_speaker_map in Hm. rewrite for_each_app in Hm.
  destruct (for_each _ before ∅) as [m0|]; simpl in Hm; [|done].
  destruct (word_speaker_map_segment m0 seg) as [m1|] eqn:E; simpl in Hm; [|done].
  destruct (segment_items_own t seg _ m0 m1 E (or_introl H1)) as (e1 & He1 & Hl).
  rewrite (segments_unclaimed t _ _ _ Hm H2), He1 in He.
  by injection He as <-.
Qed.

Lemma word_speaker_map_keys_and_speakers_witness :
  forallb well_typed_segment colliding = true
  /\ exists m,
       build_word_speaker_map colliding = Ok m
       /\ forall t,
            (is_Some (m !! t) <-> In t (segment_start_times colliding))
            /\ forall e, m !! t = Some e ->
                 exists seg, In seg colliding
                             /\ In t (starts (default [] (seg_items seg)))
                             /\ speaker_label seg = Some (entry_speaker e).
Proof.
  split; [reflexivity|].
  apply (word_speaker_map_keys_and_speakers colliding). reflexivity.
Defined.

(** ** More on the conversation *)

Lemma distinct_neighbours_snoc (l : list string) (a b : string) :
  distinct_neighbours (l ++ [a]) -> a <> b -> distinct_neighbours (l ++ [a; b]).
Proof.
  induction l as [|x l IH]; simpl; [tauto|].
  intros [Hx Hl] Hab. split; [|by apply IH].
  destruct l as [|y l]; simpl in *; done.
Qed.

Lemma distinct_neighbours_prefix (l1 l2 : list string) :
  distinct_neighbours (l1 ++ l2) -> distinct_neighbours l1.
Proof.
  induction l1 as [|x l1 IH]; simpl; [done|].
  intros [Hx Hl]. split; [|by apply IH].
  destruct l1 as [|y l1]; simpl in *; done.
Qed.

Section Neighbours.
Variable m : gmap string SpeakerEntry.

Lemma neighbours_inv_step (g : Tracked) (it : Item) :
  (is_pronunciation it = true -> spoken it = true) ->
  neighbours_inv g -> neighbours_inv (tracked_step m g it).
Proof.
  intros Hsp (Hd & Hb & Hn). unfold tracked_step.
  destruct (is_pronunciation it); simpl; [|done].
  rewrite (Hsp eq_refl).
  destruct (lookup_start m it) as [entry|].
  - destruct g as [turns [cur|] buf]; simpl in *.
    + destruct buf as [|b buf]; [by destruct Hb|].
      destruct (String.eqb_spec (entry_speaker entry) cur) as [Heq|Hne];
        unfold neighbours_inv; simpl.
      * split; [done|]. split; [|done]. intros _. by destruct buf.
      * split; [|split; [|done]].
        -- rewrite map_app, <- app_assoc. simpl.
           apply distinct_neighbours_snoc; [done | congruence].
        -- intros _. done.
    + unfold neighbours_inv; simpl. rewrite (Hn eq_refl). simpl. split; [done|].
      split; [|done]. intros _. by destruct buf.
  - unfold neighbours_inv; simpl. split; [done|]. split; [|done]. intros _.
    by destruct (tracked_buffer g).
Qed.

Lemma neighbours_inv_fold (its : list Item) (g : Tracked) :
  (forall it, In it its -> is_pronunciation it = true -> spoken it = true) ->
  neighbours_inv g -> neighbours_inv (fold_left (tracked_step m) its g).
Proof.
  revert g. induction its as [|it its IH]; intros g Hsp Hg; simpl; [done|].
  apply IH.
  - intros it' Hin. apply Hsp. by right.
  - apply neighbours_inv_step; [|done]. apply Hsp. by left.
Qed.

(** When every pronunciation item has an alternative, neighbouring turns
    have different speakers. *)
Lemma tracked_conversation_neighbours (its : list Item) :
  (forall it, In it its -> is_pronunciation it = true -> spoken it = true) ->
  distinct_neighbours (map fst (tracked_conversation m its)).
Proof.
  intros Hsp. unfold tracked_conversation, tracked_finish.
  destruct (neighbours_inv_fold its tracked_init Hsp) as (Hd & _ & _).
  { split; [done|]. split; [by intros [? [=]] | done]. }
  destruct (fold_left _ _ _) as [turns [cur|] buf]; simpl in *.
  - destruct buf as [|b buf]; [by apply distinct_neighbours_prefix in Hd|].
    destruct (String.eqb cur ""); [by apply distinct_neighbours_prefix in Hd|].
    by rewrite map_app.
  - by rewrite app_nil_r in Hd.
Qed.

(** The turns are no more than the spoken items. *)
Lemma tracked_conversation_length (its : list Item) :
  length (tracked_conversation m its) <= length (List.filter spoken its).
Proof.
  assert (forall groups : list (string * list Item),
             Forall (fun grp => grp.2 <> []) groups ->
             length groups <= length (concat (map snd groups))) as Hlen.
  { induction 1 as [|grp groups Hne _ IH]; simpl; [done|].
    rewrite length_app. destruct grp.2; [done|]. simpl. lia. }
  destruct (walk_inv_items m its) as [Ho Hn _ _ _ _].
  unfold tracked_conversation, tracked_finish.
  set (g := fold_left (tracked_step m) its tracked_init) in *.
  rewrite <- Ho, length_app.
  assert (length (tracked_turns g) <= length (concat (map snd (tracked_turns g))))
    by by apply Hlen.
  destruct (tracked_speaker g) as [cur|]; [|lia].
  destruct (tracked_buffer g) as [|b buf]; [lia|].
  destruct (String.eqb cur ""); [lia|].
  rewrite length_app. simpl. lia.
Qed.

(** The speaker of every turn is the speaker some pronunciation item
    resolves to. *)
Lemma turn_speakers_resolved_fold (its seen : list Item) (g : Tracked) :
  walk_inv m seen g ->
  Forall (fun grp => exists it, In it seen /\ is_pronunciation it = true
                                /\ resolved_speaker m it = Some grp.1)
         (tracked_turns g) ->
  Forall (fun grp => exists it, In it (seen ++ its) /\ is_pronunciation it = true
                                /\ resolved_speaker m it = Some grp.1)
         (tracked_turns (fold_left (tracked_step m) its g)).
Proof.
  revert seen g. induction its as [|it its IH]; intros seen g Hinv Hturns; simpl.
  - by rewrite app_nil_r.
  - replace (seen ++ it :: its) with ((seen ++ [it]) ++ its)
      by (by rewrite <- app_assoc).
    apply IH; [by apply walk_inv_step|].
    assert (Forall (fun grp => exists it0, In it0 (seen ++ [it])
                                 /\ is_pronunciation it0 = true
                                 /\ resolved_speaker m it0 = Some grp.1)
                   (tracked_turns g)) as Hold.
    { eapply Forall_impl; [exact Hturns|]. simpl.
      intros grp (it0 & Hin & H). exists it0. split; [|done].
      apply in_or_app. by left. }
    unfold tracked_step.
    destruct (is_pronunciation it); simpl; [|done].
    assert (forall g1 : Tracked,
               tracked_turns
                 (if spoken it
                  then {| tracked_turns := tracked_turns g1;
                          tracked_speaker := tracked_speaker g1;
                          tracked_buffer := tracked_buffer g1 ++ [it] |}
                  else g1) = tracked_turns g1) as Happ
      by (intros g1; by destruct (spoken it)).
    rewrite Happ.
    destruct (lookup_start m it) as [entry|]; [|done].
    destruct (tracked_speaker g) as [cur|] eqn:Ecur; [|done].
    destruct (tracked_buffer g) as [|b buf]; [done|].
    destruct (String.eqb (entry_speaker entry) cur); [done|]. simpl.
    apply Forall_app. split; [done|]. constructor; [|done]. simpl.
    destruct (inv_speaker _ _ _ Hinv cur Ecur) as (it0 & Hin & H).
    exists it0. split; [|done]. apply in_or_app. by left.
Qed.

Lemma tracked_conversation_speakers (its : list Item) (grp : string * list Item) :
  In grp (tracked_conversation m its) ->
  exists it, In it its /\ is_pronunciation it = true
             /\ resolved_speaker m it = Some grp.1.
Proof.
  unfold tracked_conversation, tracked_finish.
  pose proof (turn_speakers_resolved_fold its [] tracked_init
                (walk_inv_init m) (Forall_nil_2 _)) as Hturns.
  simpl in Hturns. rewrite List.Forall_forall in Hturns.
  pose proof (walk_inv_items m its) as Hinv.
  set (g := fold_left (tracked_step m) its tracked_init) in *.
  destruct (tracked_speaker g) as [cur|] eqn:Ecur; [|by apply Hturns].
  destruct (tracked_buffer g) as [|b buf]; [by apply Hturns|].
  destruct (String.eqb cur ""); [by apply Hturns|].
  intros [Hin | [<- | []]]%in_app_or; [by apply Hturns|].
  by apply (inv_speaker _ _ _ Hinv cur Ecur).
Qed.
End Neighbours.

(** X5. Every turn of the conversation is attributed to a speaker label that
    occurs in the segments, and that some pronunciation item resolves to. *)
Theorem turn_speakers_are_segment_labels (td : TranscriptData) :
  well_typed td = true ->
  segments_of td <> [] ->
  exists r conv,
    _process_transcript td = Ok r
    /\ conversation r = Some conv
    /\ forall turn, In turn conv ->
         (exists seg, In seg (segments_of td)
                      /\ speaker_label seg = Some (speaker turn))
         /\ (exists it, In it (items_of td) /\ is_pronunciation it = true
                         /\ claimed (segments_of td) it).
Proof.
  intros Hwt Hseg.
  destruct (process_conversation td Hwt Hseg) as (r & m & Hr & Hm & Hc & _).
  exists r, (map render (tracked_conversation m (items_of td))).
  split; [done|]. split; [done|].
  intros turn (grp & <- & Hin)%in_map_iff.
  destruct (tracked_conversation_speakers m _ grp Hin) as (it & Hit & Hp & Hres).
  split.
  - revert Hres. unfold resolved_speaker, lookup_start.
    destruct (start_time it) as [t|]; [|done].
    destruct (m !! t) as [e|] eqn:He; [|done]. simpl. intros [= <-].
    apply (word_speaker_map_speaker _ m t e Hm He).
  - exists it. split; [done|]. split; [done|].
    apply (claimed_resolves _ m it Hm). by eexists.
Qed.

Lemma turn_speakers_are_segment_labels_witness :
  well_typed two_speakers = true
  /\ segments_of two_speakers <> []
  /\ exists r conv,
       _process_transcript two_speakers = Ok r
       /\ conversation r = Some conv
       /\ forall turn, In turn conv ->
            (exists seg, In seg (segments_of two_speakers)
                         /\ speaker_label seg = Some (speaker turn))
            /\ (exists it, In it (items_of two_speakers)
                            /\ is_pronunciation it = true
                            /\ claimed (segments_of two_speakers) it).
Proof.
  split; [reflexivity|]. split; [discriminate|].
  apply (turn_speakers_are_segment_labels two_speakers);
    [reflexivity | discriminate].
Defined.

(** X6. The conversation has no more turns than the payload has
    pronunciation items with an alternative. *)
Theorem turns_bounded_by_spoken_items (td : TranscriptData) :
  well_typed td = true ->
  segments_of td <> [] ->
  exists r conv,
    _process_transcript td = Ok r
    /\ conversation r = Some conv
    /\ length conv <= length (List.filter spoken (items_of td)).
Proof.
  intros Hwt Hseg.
  destruct (process_conversation td Hwt Hseg) as (r & m & Hr & Hm & Hc & _).
  exists r, (map render (tracked_conversation m (items_of td))).
  split; [done|]. split; [done|].
  rewrite length_map. apply tracked_conversation_length.
Qed.

Lemma turns_bounded_by_spoken_items_witness :
  well_typed unclaimed_middle = true
  /\ segments_of unclaimed_middle <> []
  /\ exists r conv,
       _process_transcript unclaimed_middle = Ok r
       /\ conversation r = Some conv
       /\ length conv <= length (List.filter spoken (items_of unclaimed_middle)).
Proof.
  split; [reflexivity|]. split; [discriminate|].
  apply (turns_bounded_by_spoken_items unclaimed_middle);
    [reflexivity | discriminate].
Defined.

(** X7. When every pronunciation item of the payload has an alternative,
    neighbouring turns of the conversation have different speakers: a turn
    is a maximal run of one speaker. *)
Theorem neighbouring_turns_differ (td : TranscriptData) :
  well_typed td = true ->
  segments_of td <> [] ->
  (forall it, In it (items_of td) -> is_pronunciation it = true ->
              spoken it = true) ->
  exists r conv,
    _process_transcript td = Ok r
    /\ conversation r = Some conv
    /\ distinct_neighbours (map speaker conv).
Proof.
  intros Hwt Hseg Hsp.
  destruct (process_conversation td Hwt Hseg) as (r & m & Hr & Hm & Hc & _).
  exists r, (map render (tracked_conversation m (items_of td))).
  split; [done|]. split; [done|].
  rewrite map_map. simpl.
  by apply tracked_conversation_neighbours.
Qed.

Lemma neighbouring_turns_differ_witness :
  well_typed two_speakers = true
  /\ segments_of two_speakers <> []
  /\ exists r conv,
       _process_transcript two_speakers = Ok r
       /\ conversation r = Some conv
       /\ distinct_neighbours (map speaker conv).
Proof.
  split; [reflexivity|]. split; [discriminate|].
  apply (neighbouring_turns_differ two_speakers); [reflexivity | discriminate |].
  intros it [<- | [<- | [<- | []]]] _; reflexivity.
Defined.

(** ** More on the polling loop *)



Lemma wait_loop_ok_inv job_name replies d job :
  forall remaining retry,
    (wait_loop job_name replies d remaining retry).1 = Ok job ->
    exists k,
      k < remaining
      /\ replies (retry + k) = Response job
      /\ TranscriptionJobStatus job = "COMPLETED"
      /\ (forall n, n < k -> keeps_waiting (replies (retry + n)) = true)
      /\ (wait_loop job_name replies d remaining retry).2
         = rounds d k ++ [GetTranscriptionJob].
Proof.
  induction remaining as [|remaining IH]; intros retry; [done|].
  destruct (keeps_waiting (replies retry)) eqn:Hk.
  - destruct (Z.ltb_spec d 0) as [Hneg|Hd].
    + simpl. destruct (replies retry) as [job0|msg]; [|done].
      simpl in Hk. apply andb_prop in Hk as [Hc Hf].
      apply negb_true_iff in Hc, Hf. rewrite Hc, Hf.
      unfold sleep_then. destruct (Z.ltb_spec d 0); [|lia].
      by destruct (String.eqb _ "IN_PROGRESS").
    + rewrite wait_loop_keeps_waiting by done. simpl.
      intros (k & Hlt & Hr & Hc & Hbefore & Ht)%IH. exists (S k).
      replace (retry + S k) with (S retry + k) by lia.
      split; [lia|]. split; [done|]. split; [done|]. split; [|by rewrite Ht].
      intros [|n] Hn; [by rewrite Nat.add_0_r|].
      replace (retry + S n) with (S retry + n) by lia. apply Hbefore. lia.
  - rewrite wait_loop_decisive by done. simpl. intros Hout. exists 0.
    rewrite Nat.add_0_r. split; [lia|].
    unfold decisive_outcome in Hout.
    destruct (replies retry) as [job0|msg]; [|done].
    destruct (String.eqb_spec (TranscriptionJobStatus job0) "COMPLETED");
      [|done].
    injection Hout as <-. split; [done|]. split; [done|]. split; [lia | done].
Qed.

(** X9. A job returned by [_wait_for_transcription_job] is the job of a reply
    within the retry budget whose status is COMPLETED; every reply before it
    kept the loop waiting, and the loop stopped at it. *)
Theorem returned_job_is_completed (max_retries retry_delay : Z)
    (job_name : string) (replies : nat -> JobReply) (job : TranscriptionJob) :
  (_wait_for_transcription_job max_retries retry_delay job_name replies).1 = Ok job ->
  exists k,
    k < Z.to_nat max_retries
    /\ replies k = Response job
    /\ TranscriptionJobStatus job = "COMPLETED"
    /\ (forall n, n < k -> keeps_waiting (replies n) = true)
    /\ (_wait_for_transcription_job max_retries retry_delay job_name replies).2
       = rounds retry_delay k ++ [GetTranscriptionJob].
Proof.
  unfold _wait_for_transcription_job. intros H.
  by apply wait_loop_ok_inv in H.
Qed.

Lemma returned_job_is_completed_witness :
  exists k,
    k < Z.to_nat 5
    /\ completes_at_third k
       = Response {| TranscriptionJobStatus := "COMPLETED"; FailureReason := None |}
    /\ (forall n, n < k -> keeps_waiting (completes_at_third n) = true)
    /\ (_wait_for_transcription_job 5 10 "job" completes_at_third).2
       = rounds 10 k ++ [GetTranscriptionJob].
Proof.
  destruct (returned_job_is_completed 5 10 "job" completes_at_third
              {| TranscriptionJobStatus := "COMPLETED"; FailureReason := None |}
              eq_refl) as (k & H1 & H2 & _ & H3 & H4).
  exists k. auto.
Defined.

Lemma slept_rounds (d : Z) (k : nat) : slept (rounds d k) = (Z.of_nat k * d)%Z.
Proof. induction k as [|k IH]; simpl slept; [done | rewrite IH; lia]. Qed.

Lemma slept_app (t1 t2 : list Event) : slept (t1 ++ t2) = (slept t1 + slept t2)%Z.
Proof.
  induction t1 as [|[|d] t1 IH]; simpl; [done | done | rewrite IH; lia].
Qed.

(** X10. With a non-negative delay, [_wait_for_transcription_job] sleeps
    [retry_delay] after each check that does not end the wait, and so for at
    most [max_retries] times [retry_delay] seconds in all. *)
Theorem wait_sleeps_within_budget (max_retries retry_delay : Z)
    (job_name : string) (replies : nat -> JobReply) :
  (0 <= retry_delay)%Z ->
  let run := _wait_for_transcription_job max_retries retry_delay job_name replies in
  (exists k, k <= Z.to_nat max_retries
             /\ slept run.2 = (Z.of_nat k * retry_delay)%Z)
  /\ (slept run.2 <= Z.max 0 max_retries * retry_delay)%Z.
Proof.
  intros Hd run. subst run. unfold _wait_for_transcription_job.
  destruct (wait_loop_shape job_name replies retry_delay Hd
              (Z.to_nat max_retries) 0) as (k & _ & Hrun).
  assert (k <= Z.to_nat max_retries
          /\ slept (wait_loop job_name replies retry_delay
                      (Z.to_nat max_retries) 0).2 = (Z.of_nat k * retry_delay)%Z)
    as [Hk Hs].
  { destruct Hrun as [(-> & _ & ->) | (Hlt & -> & _)].
    - by rewrite slept_rounds.
    - rewrite slept_app, slept_rounds. simpl. split; lia. }
  split; [by exists k|]. rewrite Hs. nia.
Qed.

Lemma wait_sleeps_within_budget_witness :
  (0 <= 10)%Z
  /\ (slept (_wait_for_transcription_job 5 10 "job" always_in_progress).2
      <= Z.max 0 5 * 10)%Z.
Proof.
  split; [lia|].
  apply (wait_sleeps_within_budget 5 10 "job" always_in_progress). lia.
Defined.

(** X11. With a negative delay the first check that does not end the wait
    makes [time.sleep] raise [ValueError]: the call ends after one check, and
    not with a [TranscriptionError]. *)
Theorem negative_delay_raises_value_error (max_retries retry_delay : Z)
    (job_name : string) (replies : nat -> JobReply) :
  (retry_delay < 0)%Z ->
  (0 < max_retries)%Z ->
  keeps_waiting (replies 0) = true ->
  _wait_for_transcription_job max_retries retry_delay job_name replies
  = (Raise (ValueError "sleep length must be non-negative"), [GetTranscriptionJob]).
Proof.
  intros Hd Hmax Hk. unfold _wait_for_transcription_job.
  destruct (Z.to_nat max_retries) as [|remaining] eqn:E; [lia|].
  simpl. destruct (replies 0) as [job|msg]; [|done].
  simpl in Hk. apply andb_prop in Hk as [Hc Hf].
  apply negb_true_iff in Hc, Hf. rewrite Hc, Hf.
  unfold sleep_then. destruct (Z.ltb_spec retry_delay 0); [|lia].
  by destruct (String.eqb _ "IN_PROGRESS").
Qed.

Lemma negative_delay_raises_value_error_witness :
  (-1 < 0)%Z /\ (0 < 5)%Z
  /\ _wait_for_transcription_job 5 (-1) "job" always_in_progress
     = (Raise (ValueError "sleep length must be non-negative"),
        [GetTranscriptionJob]).
Proof.
  split; [lia|]. split; [lia|].
  apply (negative_delay_raises_value_error 5 (-1) "job" always_in_progress);
    [lia | lia | reflexivity].
Defined.

(** ** Splitting, joining and lowering strings *)

Lemma str_split_nonempty (sep : Ascii.ascii) (s : string) : str_split sep s <> [].
Proof.
  destruct s as [|c s]; simpl; [done|].
  destruct (Ascii.eqb c sep); [done|]. by destruct (str_split sep s).
Qed.

Lemma join_String (sep : string) (c : Ascii.ascii) (w : string) (ws : list string) :
  join sep (String c w :: ws) = String c (join sep (w :: ws)).
Proof. by destruct ws. Qed.

(** Joining the pieces of a split with the separator gives the string back. *)
Lemma join_str_split (s : string) : join "/" (str_split slash s) = s.
Proof.
  induction s as [|c s IH]; [done|]. simpl.
  destruct (Ascii.eqb_spec c slash) as [->|Hc].
  - rewrite join_cons by apply str_split_nonempty. by rewrite IH.
  - pose proof (str_split_nonempty slash s).
    destruct (str_split slash s) as [|w ws]; [done|].
    by rewrite join_String, IH.
Qed.

Lemma str_split_no_slash (s : string) :
  has_slash s = false -> str_split slash s = [s].
Proof.
  induction s as [|c s IH]; [done|]. simpl.
  destruct (Ascii.eqb c slash); [done|]. simpl. by intros ->%IH.
Qed.

Lemma str_split_at_slash (b k : string) :
  has_slash b = false ->
  str_split slash (b +:+ String slash k) = b :: str_split slash k.
Proof.
  induction b as [|c b IH].
  - intros _. reflexivity.
  - cbn [has_slash]. destruct (Ascii.eqb c slash) eqn:Hc; [done|].
    intros Hb. change (String c b +:+ String slash k)
      with (String c (b +:+ String slash k)).
    cbn [str_split]. by rewrite Hc, IH.
Qed.

Lemma str_split_head_no_slash (s b : string) (rest : list string) :
  str_split slash s = b :: rest -> has_slash b = false.
Proof.
  revert b rest. induction s as [|c s IH]; intros b rest; simpl.
  - by intros [= <- <-].
  - destruct (Ascii.eqb c slash) eqn:Hc; [by intros [= <- <-]|].
    destruct (str_split slash s) as [|w ws] eqn:E; intros [= <- <-]; simpl;
      rewrite Hc; simpl; [done | by apply (IH w ws)].
Qed.

Lemma str_startswith_drop (pre s : string) :
  str_startswith s pre = true -> s = pre +:+ drop_chars (String.length pre) s.
Proof.
  unfold str_startswith. revert s. induction pre as [|c pre IH]; intros s.
  - by destruct s.
  - destruct s as [|c' s]; simpl; [done|].
    destruct (Ascii.ascii_dec c c') as [->|]; [|done].
    intros H%IH. change (String c' pre +:+ drop_chars (String.length pre) s)
      with (String c' (pre +:+ drop_chars (String.length pre) s)).
    by f_equal.
Qed.

Lemma str_startswith_app (pre s : string) : str_startswith (pre +:+ s) pre = true.
Proof.
  unfold str_startswith. induction pre as [|c pre IH]; [by destruct s|].
  change (String c pre +:+ s) with (String c (pre +:+ s)). simpl.
  by destruct (Ascii.ascii_dec c c).
Qed.

Lemma drop_chars_app (pre s : string) :
  drop_chars (String.length pre) (pre +:+ s) = s.
Proof.
  induction pre as [|c pre IH]; [reflexivity|].
  change (String c pre +:+ s) with (String c (pre +:+ s)).
  cbn [String.length drop_chars]. exact IH.
Qed.

Lemma str_lower_app (a b : string) :
  str_lower (a +:+ b) = str_lower a +:+ str_lower b.
Proof.
  induction a as [|c a IH]; [done|].
  change (String c a +:+ b) with (String c (a +:+ b)). simpl.
  rewrite IH. done.
Qed.

Lemma lower_char_slash (c : Ascii.ascii) :
  Ascii.eqb (lower_char c) slash = Ascii.eqb c slash.
Proof. destruct c as [[] [] [] [] [] [] [] []]; reflexivity. Qed.

Lemma has_slash_lower (s : string) : has_slash (str_lower s) = has_slash s.
Proof.
  induction s as [|c s IH]; [done|]. simpl. by rewrite lower_char_slash, IH.
Qed.

Lemma str_endswith_app (t s suf : string) :
  str_endswith s suf = true -> str_endswith (t +:+ s) suf = true.
Proof.
  intros H. induction t as [|c t IH]; [done|].
  change (String c t +:+ s) with (String c (t +:+ s)).
  simpl. rewrite IH. apply orb_true_r.
Qed.

(** ** The base name of a path *)

Lemma basename_no_slash (p : string) : has_slash (basename p) = false.
Proof.
  induction p as [|c p IH]; [done|]. simpl.
  destruct (has_slash p) eqn:Hp; [done|].
  destruct (Ascii.eqb c slash) eqn:Hc; [done|]. simpl. by rewrite Hc.
Qed.

Lemma basename_suffix (p : string) : exists dir, p = dir +:+ basename p.
Proof.
  induction p as [|c p [dir IH]]; [by exists ""|]. simpl.
  destruct (has_slash p).
  - exists (String c dir).
    change (String c dir +:+ basename p) with (String c (dir +:+ basename p)).
    by rewrite <- IH.
  - destruct (Ascii.eqb c slash); [by exists (String c "") | by exists ""].
Qed.

(** A suffix without ['/'] of a path is a suffix of its base name. *)
Lemma basename_endswith (p suf : string) :
  has_slash suf = false ->
  str_endswith (str_lower p) suf = true ->
  str_endswith (str_lower (basename p)) suf = true.
Proof.
  intros Hsuf. induction p as [|c p IH]; [done|].
  assert (has_slash (String c p) = true ->
          String.eqb (String (lower_char c) (str_lower p)) suf = false) as Hne.
  { intros Hs. destruct (String.eqb_spec (String (lower_char c) (str_lower p)) suf)
      as [E|]; [|done].
    rewrite <- (has_slash_lower (String c p)) in Hs. simpl in Hs.
    rewrite <- E in Hsuf. simpl in Hsuf. congruence. }
  cbn [basename]. destruct (has_slash p) eqn:Hp.
  - cbn [str_lower str_endswith]. intros [H | H]%orb_prop; [|by apply IH].
    rewrite Hne in H; [done|]. cbn [has_slash]. rewrite Hp. apply orb_true_r.
  - destruct (Ascii.eqb c slash) eqn:Hc; [|done].
    cbn [str_lower str_endswith]. intros [H | H]%orb_prop; [|done].
    rewrite Hne in H; [done|]. cbn [has_slash]. by rewrite Hc.
Qed.

(** The key made for an MP3 file is the key of an MP3 object. *)
Lemma upload_key_is_mp3 (file_path : string) :
  is_mp3 file_path = true -> is_mp3 ("uploads/" +:+ basename file_path) = true.
Proof.
  unfold is_mp3. intros H. rewrite str_lower_app.
  apply str_endswith_app. by apply basename_endswith.
Qed.

(** ** Parsing the transcript URI *)

Lemma parse_s3_uri_written (bucket k : string) :
  has_slash bucket = false ->
  parse_s3_uri ("s3://" +:+ bucket +:+ "/" +:+ k) = Returns (bucket, k).
Proof.
  intros Hb. unfold parse_s3_uri.
  rewrite str_startswith_app.
  change 5 with (String.length "s3://"). rewrite drop_chars_app.
  simpl negb. cbv iota.
  change ("/" +:+ k) with (String slash k).
  rewrite str_split_at_slash by done.
  by rewrite join_str_split.
Qed.

(** X12. Parsing round trip: the URI written [s3://bucket/key], for a
    bucket name without ['/'], is parsed back into that bucket and key,
    whatever the key (slashes and empty parts included). *)
Theorem parse_s3_uri_round_trip (bucket k : string) :
  has_slash bucket = false ->
  parse_s3_uri ("s3://" +:+ bucket +:+ "/" +:+ k) = Returns (bucket, k).
Proof. apply parse_s3_uri_written. Qed.

Lemma parse_s3_uri_round_trip_witness :
  has_slash "transcripts" = false
  /\ parse_s3_uri ("s3://" +:+ "transcripts" +:+ "/" +:+ "2024/job.json")
     = Returns ("transcripts", "2024/job.json").
Proof.
  split; [reflexivity|].
  apply (parse_s3_uri_round_trip "transcripts" "2024/job.json"). reflexivity.
Defined.

(** X13. [parse_s3_uri] raises [ValueError] exactly for the URIs that do
    not start with [s3://]; the list index it takes is never out of range.
    A bucket it returns has no ['/'], and bucket and key spell the URI back:
    [s3://bucket/key], or [s3://bucket] for an empty key. *)
Theorem parse_s3_uri_inverse (uri : string) :
  (str_startswith uri "s3://" = false /\
   parse_s3_uri uri
   = Throws (Known (ValueError ("Invalid transcript URI: " +:+ uri))))
  \/ (str_startswith uri "s3://" = true /\
      exists bucket k,
        parse_s3_uri uri = Returns (bucket, k)
        /\ has_slash bucket = false
        /\ (uri = "s3://" +:+ bucket +:+ "/" +:+ k
            \/ (k = "" /\ uri = "s3://" +:+ bucket))).
Proof.
  unfold parse_s3_uri. destruct (str_startswith uri "s3://") eqn:Hpre; [|by left].
  right. split; [done|]. simpl negb. cbv iota.
  apply str_startswith_drop in Hpre. simpl String.length in Hpre.
  pose proof (join_str_split (drop_chars 5 uri)) as Hjoin.
  destruct (str_split slash (drop_chars 5 uri)) as [|b rest] eqn:E;
    [by apply str_split_nonempty in E|].
  exists b, (join "/" rest). split; [done|].
  split; [by apply (str_split_head_no_slash _ b rest E)|].
  destruct rest as [|r rest].
  - right. split; [done|]. simpl in Hjoin. by rewrite Hjoin.
  - left. rewrite join_cons in Hjoin by done. by rewrite Hjoin.
Qed.

(** ** Runs *)

Lemma bind_returns {A B} (c : io A) (f : A -> io B) (a : A) :
  completion_of c = Returns a ->
  c ≫= f = Run (completion_of (f a)) (calls_of c ++ calls_of (f a)).
Proof. intros H. unfold mbind, io_bind. by rewrite H. Qed.

Lemma bind_throws {A B} (c : io A) (f : A -> io B) (e : failure) :
  completion_of c = Throws e -> c ≫= f = Run (Throws e) (calls_of c).
Proof. intros H. unfold mbind, io_bind. by rewrite H. Qed.

Lemma io_eta {A} (c : io A) : Run (completion_of c) (calls_of c) = c.
Proof. by destruct c. Qed.

(** ** [_upload_to_s3] *)

#[local] Arguments job_settings : simpl never.
#[local] Arguments base_settings : simpl never.
#[local] Arguments _generate_job_name : simpl never.
#[local] Arguments _process_transcript : simpl never.
#[local] Arguments _wait_for_transcription_job : simpl never.
#[local] Arguments is_mp3 : simpl never.
#[local] Arguments basename : simpl never.
#[local] Arguments str_int : simpl never.

(** X14. A key returned by [_upload_to_s3] is [uploads/] followed by the
    base name of the file: a name without ['/'] that the path ends with.
    The file was seen to exist, and the one call made is the upload of the
    file under that key. *)
Theorem upload_key_shape (w : World) (file_path bucket k : string) :
  completion_of (_upload_to_s3 w file_path bucket) = Returns k ->
  k = "uploads/" +:+ basename file_path
  /\ has_slash (basename file_path) = false
  /\ (exists dir, file_path = dir +:+ basename file_path)
  /\ path_exists_at_upload w file_path = true
  /\ calls_of (_upload_to_s3 w file_path bucket) = [UploadFile file_path bucket k].
Proof.
  unfold _upload_to_s3.
  destruct (path_exists_at_upload w file_path); simpl; [|done].
  unfold except_client_error, call. simpl.
  destruct (upload_file w file_path bucket _) as [[]|[e|msg|msg|msg]]; simpl;
    try done.
  intros [= <-]. split; [done|]. split; [apply basename_no_slash|].
  split; [apply basename_suffix | done].
Qed.

Lemma upload_key_shape_witness :
  "uploads/visit.mp3" = "uploads/" +:+ basename "/data/visit.mp3"
  /\ has_slash (basename "/data/visit.mp3") = false
  /\ calls_of (_upload_to_s3 calm_world "/data/visit.mp3" "audio")
     = [UploadFile "/data/visit.mp3" "audio" "uploads/visit.mp3"].
Proof.
  destruct (upload_key_shape calm_world "/data/visit.mp3" "audio"
              "uploads/visit.mp3" eq_refl) as (H1 & H2 & _ & _ & H3).
  auto.
Defined.

(** ** [_start_transcription_job] *)

Lemma job_settings_lookup (job_name s3_uri : string)
    (additional_settings : option (gmap string Setting)) (k : string) :
  job_settings job_name s3_uri additional_settings !! k
  = match additional_settings ≫= (fun extra => extra !! k) with
    | Some v => Some v
    | None => base_settings job_name s3_uri !! k
    end.
Proof.
  unfold job_settings. destruct additional_settings as [extra|]; simpl; [|done].
  destruct (Nat.eqb_spec (size extra) 0) as [Hsize|Hsize].
  - apply map_size_empty_iff in Hsize. subst extra. by rewrite lookup_empty.
  - rewrite lookup_union. by destruct (extra !! k), (base_settings _ _ !! k).
Qed.

Lemma start_job_calls (w : World) (bucket k : string)
    (additional_settings : option (gmap string Setting)) :
  calls_of (_start_transcription_job w bucket k additional_settings)
  = [StartTranscriptionJob
       (job_settings (_generate_job_name w (bucket +:+ "/" +:+ k))
          ("s3://" +:+ bucket +:+ "/" +:+ k) additional_settings)].
Proof.
  unfold _start_transcription_job, except_client_error, call. simpl.
  by destruct (start_transcription_job w _) as [[]|[e|msg|msg|msg]].
Qed.

Lemma start_job_returns (w : World) (bucket k : string)
    (additional_settings : option (gmap string Setting)) (job_name : string) :
  completion_of (_start_transcription_job w bucket k additional_settings)
  = Returns job_name ->
  job_name = _generate_job_name w (bucket +:+ "/" +:+ k).
Proof.
  unfold _start_transcription_job, except_client_error, call. simpl.
  destruct (start_transcription_job w _) as [[]|[e|msg|msg|msg]]; simpl;
    congruence.
Qed.

Lemma start_job_run (w : World) (bucket k : string)
    (additional_settings : option (gmap string Setting)) :
  start_transcription_job w
    (job_settings (_generate_job_name w (bucket +:+ "/" +:+ k))
       ("s3://" +:+ bucket +:+ "/" +:+ k) additional_settings) = Returns tt ->
  _start_transcription_job w bucket k additional_settings
  = Run (Returns (_generate_job_name w (bucket +:+ "/" +:+ k)))
        [StartTranscriptionJob
           (job_settings (_generate_job_name w (bucket +:+ "/" +:+ k))
              ("s3://" +:+ bucket +:+ "/" +:+ k) additional_settings)].
Proof.
  intros Hstart.
  unfold _start_transcription_job, except_client_error, call. simpl.
  by rewrite Hstart.
Qed.

(** X15. [_start_transcription_job] sends the base settings updated by the
    additional settings, which win key by key (a nested object is replaced
    as a whole); the name it returns is the generated one, also when the
    additional settings give the job another name. *)
Theorem start_job_settings (w : World) (bucket k : string)
    (additional_settings : option (gmap string Setting)) :
  let job_name := _generate_job_name w (bucket +:+ "/" +:+ k) in
  let sent := job_settings job_name ("s3://" +:+ bucket +:+ "/" +:+ k)
                additional_settings in
  start_transcription_job w sent = Returns tt ->
  _start_transcription_job w bucket k additional_settings
  = Run (Returns job_name) [StartTranscriptionJob sent]
  /\ forall field,
       sent !! field
       = match additional_settings ≫= (fun extra => extra !! field) with
         | Some v => Some v
         | None =>
             base_settings job_name ("s3://" +:+ bucket +:+ "/" +:+ k) !! field
         end.
Proof.
  intros job_name sent Hstart. split; [|intros field; apply job_settings_lookup].
  by apply start_job_run.
Qed.

Lemma start_job_settings_witness :
  let extra : gmap string Setting :=
    {[ "TranscriptionJobName" := SText "mine" ]} in
  let job_name := _generate_job_name calm_world ("audio" +:+ "/" +:+ "a.mp3") in
  let sent := job_settings job_name ("s3://" +:+ "audio" +:+ "/" +:+ "a.mp3")
                (Some extra) in
  start_transcription_job calm_world sent = Returns tt
  /\ _start_transcription_job calm_world "audio" "a.mp3" (Some extra)
     = Run (Returns job_name) [StartTranscriptionJob sent]
  /\ sent !! "TranscriptionJobName" = Some (SText "mine").
Proof.
  intros extra job_name sent. split; [reflexivity|].
  destruct (start_job_settings calm_world "audio" "a.mp3" (Some extra) eq_refl)
    as [H1 H2].
  split; [exact H1|]. fold job_name sent in H2.
  rewrite (H2 "TranscriptionJobName"). reflexivity.
Defined.

(** ** [_get_transcript_from_uri] *)

(** X16. For a URI that does not start with [s3://], such as an HTTPS URL,
    [_get_transcript_from_uri] raises [TranscriptionError] and downloads
    nothing. *)
Theorem foreign_uri_is_rejected (w : World) (uri : string) :
  str_startswith uri "s3://" = false ->
  _get_transcript_from_uri w uri
  = Run (Throws (Known (TranscriptionError
                          ("Failed to retrieve transcript: " +:+
                           "Invalid transcript URI: " +:+ uri)))) [].
Proof.
  intros H. unfold _get_transcript_from_uri, parse_s3_uri. rewrite H. done.
Qed.

Lemma foreign_uri_is_rejected_witness :
  str_startswith "https://s3.amazonaws.com/t/job.json" "s3://" = false
  /\ _get_transcript_from_uri calm_world "https://s3.amazonaws.com/t/job.json"
     = Run (Throws (Known (TranscriptionError
                             ("Failed to retrieve transcript: " +:+
                              "Invalid transcript URI: " +:+
                              "https://s3.amazonaws.com/t/job.json")))) [].
Proof.
  split; [reflexivity|].
  apply (foreign_uri_is_rejected calm_world). reflexivity.
Defined.

Lemma get_transcript_steps (w : World) (bucket k tmp : string)
    (data : TranscriptData) :
  has_slash bucket = false ->
  make_temp_file w = Returns tmp ->
  download_file w bucket k tmp = Returns tt ->
  load_json w tmp = Returns data ->
  _get_transcript_from_uri w ("s3://" +:+ bucket +:+ "/" +:+ k)
  = match unlink w tmp with
    | Returns _ => Run (Returns data) [DownloadFile bucket k tmp]
    | Throws f =>
        Run (Throws (Known (TranscriptionError
                              ("Failed to retrieve transcript: " +:+ str_failure f))))
            [DownloadFile bucket k tmp]
    end.
Proof.
  intros Hb Htmp Hdl Hload. unfold _get_transcript_from_uri.
  rewrite (parse_s3_uri_written bucket k Hb), Htmp.
  destruct (unlink w tmp) as [[]|f] eqn:Hu;
    unfold quiet, call, except_exception, mbind, io_bind; simpl;
    repeat (first [rewrite Hdl | rewrite Hload | rewrite Hu]; simpl);
    done.
Qed.

(** X17. For the URI [s3://bucket/key], when the temporary file, the
    download and the parsing succeed, [_get_transcript_from_uri] downloads
    that object once and returns the parsed transcript, unless the removal
    of the temporary file fails: then it raises [TranscriptionError], and the
    transcript is lost. *)
Theorem get_transcript_outcome (w : World) (bucket k tmp : string)
    (data : TranscriptData) :
  has_slash bucket = false ->
  make_temp_file w = Returns tmp ->
  download_file w bucket k tmp = Returns tt ->
  load_json w tmp = Returns data ->
  (unlink w tmp = Returns tt ->
   _get_transcript_from_uri w ("s3://" +:+ bucket +:+ "/" +:+ k)
   = Run (Returns data) [DownloadFile bucket k tmp])
  /\ (forall f, unlink w tmp = Throws f ->
      _get_transcript_from_uri w ("s3://" +:+ bucket +:+ "/" +:+ k)
      = Run (Throws (Known (TranscriptionError
                              ("Failed to retrieve transcript: " +:+ str_failure f))))
            [DownloadFile bucket k tmp]).
Proof.
  intros Hb Htmp Hdl Hload.
  rewrite (get_transcript_steps w bucket k tmp data Hb Htmp Hdl Hload).
  split; [by intros -> | by intros f ->].
Qed.

Lemma get_transcript_outcome_witness :
  has_slash "transcripts" = false
  /\ _get_transcript_from_uri calm_world
       ("s3://" +:+ "transcripts" +:+ "/" +:+ "2024/job.json")
     = Run (Returns two_speakers)
           [DownloadFile "transcripts" "2024/job.json" "/tmp/tmp1.json"].
Proof.
  split; [reflexivity|].
  apply (get_transcript_outcome calm_world "transcripts" "2024/job.json"
           "/tmp/tmp1.json" two_speakers); reflexivity.
Defined.

(** ** [transcribe_s3_file] and [transcribe_file] *)

#[local] Arguments _start_transcription_job : simpl never.
#[local] Arguments _upload_to_s3 : simpl never.
#[local] Arguments wait_for_job : simpl never.
#[local] Arguments _get_transcript_from_uri : simpl never.

Lemma bind_run_returns {A B} (a : A) (cs : list Call) (f : A -> io B) :
  Run (Returns a) cs ≫= f = Run (completion_of (f a)) (cs ++ calls_of (f a)).
Proof. reflexivity. Qed.

Lemma calls_of_bind {A B} (c : io A) (f : A -> io B) :
  exists rest, calls_of (c ≫= f) = calls_of c ++ rest.
Proof.
  unfold mbind, io_bind. destruct (completion_of c); simpl.
  - by eexists.
  - exists []. by rewrite app_nil_r.
Qed.

(** The inputs that [transcribe_s3_file] accepts. *)
Lemma transcribe_s3_file_valid (self : Transcriber) (w : World)
    (bucket k : string) (additional_settings : option (gmap string Setting)) :
  nonempty_str bucket && nonempty_str k && is_mp3 k = true ->
  transcribe_s3_file self w bucket k additional_settings
  = (job_name ← _start_transcription_job w bucket k additional_settings;
     job_details ← wait_for_job self w job_name;
     match transcript_file_uri w job_details with
     | Some (String c u) =>
         transcript_data ← _get_transcript_from_uri w (String c u);
         result ← quiet (of_result (_process_transcript transcript_data));
         mret {| processed := result; md_bucket := bucket; md_key := k;
                 md_file_name := None; md_file_path := None;
                 s3_location := None |}
     | _ =>
         throw (Known (TranscriptionError "No transcript URI found in job details"))
     end).
Proof.
  intros [[Hb Hk]%andb_prop Hm]%andb_prop. unfold transcribe_s3_file.
  by rewrite Hb, Hk, Hm.
Qed.

Lemma transcribe_s3_file_validates_first_aux (self : Transcriber) (w : World)
    (bucket k : string) (additional_settings : option (gmap string Setting)) :
  nonempty_str bucket && nonempty_str k && is_mp3 k = true ->
  exists rest,
    calls_of (transcribe_s3_file self w bucket k additional_settings)
    = StartTranscriptionJob
        (job_settings (_generate_job_name w (bucket +:+ "/" +:+ k))
           ("s3://" +:+ bucket +:+ "/" +:+ k) additional_settings)
      :: rest.
Proof.
  intros H. rewrite (transcribe_s3_file_valid self w bucket k _ H).
  destruct (calls_of_bind (_start_transcription_job w bucket k additional_settings)
              (fun job_name =>
                 job_details ← wait_for_job self w job_name;
                 match transcript_file_uri w job_details with
                 | Some (String c u) =>
                     transcript_data ← _get_transcript_from_uri w (String c u);
                     result ← quiet (of_result (_process_transcript transcript_data));
                     mret {| processed := result; md_bucket := bucket;
                             md_key := k; md_file_name := None;
                             md_file_path := None; s3_location := None |}
                 | _ =>
                     throw (Known (TranscriptionError
                                     "No transcript URI found in job details"))
                 end)) as [rest Hrest].
  rewrite Hrest, start_job_calls. by exists rest.
Qed.

(** X18. [transcribe_s3_file] checks its arguments before it calls AWS:
    with an empty bucket or key, or a key that does not end in [.mp3]
    (whatever the case of the letters), it raises [ValueError] and makes no
    call; otherwise its first call starts the transcription job for
    [s3://bucket/key]. *)
Theorem transcribe_s3_file_validates_first (self : Transcriber) (w : World)
    (bucket k : string) (additional_settings : option (gmap string Setting)) :
  (nonempty_str bucket && nonempty_str k && is_mp3 k = false ->
   exists msg,
     transcribe_s3_file self w bucket k additional_settings
     = Run (Throws (Known (ValueError msg))) [])
  /\ (nonempty_str bucket && nonempty_str k && is_mp3 k = true ->
      exists rest,
        calls_of (transcribe_s3_file self w bucket k additional_settings)
        = StartTranscriptionJob
            (job_settings (_generate_job_name w (bucket +:+ "/" +:+ k))
               ("s3://" +:+ bucket +:+ "/" +:+ k) additional_settings)
          :: rest).
Proof.
  split.
  - intros H. unfold transcribe_s3_file.
    destruct (nonempty_str bucket); simpl in *; [|by eexists].
    destruct (nonempty_str k); simpl in *; [|by eexists].
    rewrite H. simpl. by eexists.
  - apply transcribe_s3_file_validates_first_aux.
Qed.

Lemma not_download_in_polls (trace : list Event) (b o p : string) :
  ~ In (DownloadFile b o p) (map Poll trace).
Proof. by intros (e & [=] & _)%in_map_iff. Qed.



Lemma wait_for_job_decisive (self : Transcriber) (w : World) (job_name : string)
    (kth : nat) :
  (0 <= retry_delay self)%Z ->
  kth < Z.to_nat (max_retries self) ->
  (forall n, n < kth ->
             keeps_waiting (get_transcription_job w job_name n) = true) ->
  keeps_waiting (get_transcription_job w job_name kth) = false ->
  wait_for_job self w job_name
  = Run (of_result (decisive_outcome (get_transcription_job w job_name kth)))
        (map Poll (rounds (retry_delay self) kth ++ [GetTranscriptionJob])).
Proof.
  intros Hd Hk Hbefore Hat. unfold wait_for_job.
  by rewrite (wait_decisive _ _ job_name _ kth Hd Hk Hbefore Hat).
Qed.



Lemma upload_run (w : World) (file_path bucket : string) :
  path_exists_at_upload w file_path = true ->
  upload_file w file_path bucket ("uploads/" +:+ basename file_path) = Returns tt ->
  _upload_to_s3 w file_path bucket
  = Run (Returns ("uploads/" +:+ basename file_path))
        [UploadFile file_path bucket ("uploads/" +:+ basename file_path)].
Proof.
  intros He Hu. unfold _upload_to_s3. rewrite He. simpl.
  unfold except_client_error, call. simpl. by rewrite Hu.
Qed.

(** X21. The key that [transcribe_file] makes for an MP3 file always passes
    the MP3 check of [transcribe_s3_file]: for a file that exists, whose
    name ends in [.mp3], a non-empty bucket and an upload that succeeds, the
    calls are the upload under [uploads/<base name>] and then the start of
    the job for that object. *)
Theorem transcribe_file_reaches_job_start (self : Transcriber) (w : World)
    (file_path bucket : string)
    (additional_settings : option (gmap string Setting)) :
  let k := "uploads/" +:+ basename file_path in
  path_exists w file_path = true ->
  path_exists_at_upload w file_path = true ->
  is_mp3 file_path = true ->
  nonempty_str bucket = true ->
  upload_file w file_path bucket k = Returns tt ->
  exists rest,
    calls_of (transcribe_file self w file_path bucket additional_settings)
    = UploadFile file_path bucket k
      :: StartTranscriptionJob
           (job_settings (_generate_job_name w (bucket +:+ "/" +:+ k))
              ("s3://" +:+ bucket +:+ "/" +:+ k) additional_settings)
      :: rest.
Proof.
  intros k He Heu Hmp3 Hb Hup. subst k. unfold transcribe_file.
  rewrite He, Hmp3. cbn [negb]. cbv iota.
  rewrite (upload_run w file_path bucket Heu Hup).
  assert (nonempty_str bucket
          && nonempty_str ("uploads/" +:+ basename file_path)
          && is_mp3 ("uploads/" +:+ basename file_path) = true) as Hvalid.
  { rewrite Hb. by rewrite upload_key_is_mp3. }
  remember ("uploads/" +:+ basename file_path) as k eqn:Ek.
  destruct (transcribe_s3_file_validates_first_aux self w bucket k
              additional_settings Hvalid) as [rest Hrest].
  rewrite bind_run_returns. cbv beta. cbn [calls_of].
  destruct (calls_of_bind (transcribe_s3_file self w bucket k additional_settings)
              (fun result =>
                 mret {| processed := processed result;
                         md_bucket := md_bucket result; md_key := md_key result;
                         md_file_name := Some (basename file_path);
                         md_file_path := Some file_path;
                         s3_location := s3_location result |}))
    as [rest' Hrest'].
  rewrite Hrest', Hrest. by eexists.
Qed.

Lemma transcribe_file_reaches_job_start_witness :
  is_mp3 "/data/Visit.MP3" = true
  /\ exists rest,
       calls_of (transcribe_file default_transcriber calm_world
                   "/data/Visit.MP3" "audio" None)
       = UploadFile "/data/Visit.MP3" "audio" "uploads/Visit.MP3"
         :: StartTranscriptionJob
              (job_settings
                 (_generate_job_name calm_world
                    ("audio" +:+ "/" +:+ "uploads/" +:+ basename "/data/Visit.MP3"))
                 ("s3://" +:+ "audio" +:+ "/" +:+ "uploads/"
                  +:+ basename "/data/Visit.MP3") None)
         :: rest.
Proof.
  split; [reflexivity|].
  apply (transcribe_file_reaches_job_start default_transcriber calm_world
           "/data/Visit.MP3" "audio" None); reflexivity.
Defined.

(** ** [lambda_handler] *)

#[local] Arguments transcribe_s3_file : simpl never.
#[local] Arguments transcribe_file : simpl never.

Lemma bind_inv {A B} (c : io A) (f : A -> io B) (b : B) :
  completion_of (c ≫= f) = Returns b ->
  exists a, completion_of c = Returns a /\ completion_of (f a) = Returns b.
Proof.
  unfold mbind, io_bind. destruct (completion_of c) as [a|e]; simpl; [|done].
  intros H. by exists a.
Qed.

Lemma ret_bind {A B} (a : A) (f : A -> io B) : mret a ≫= f = f a.
Proof. unfold mbind, io_bind, mret, io_ret. simpl. apply io_eta. Qed.

Lemma quiet_bind {A B} (a : A) (f : A -> io B) : quiet (Returns a) ≫= f = f a.
Proof. apply ret_bind. Qed.

Lemma getitem_bind {A B} (k : string) (a : A) (f : A -> io B) :
  getitem_io k (Some a) ≫= f = f a.
Proof. apply ret_bind. Qed.

Lemma log_event_ok (event : LambdaEvent) :
  records_have_length event = true -> log_event event = Ok tt.
Proof.
  unfold records_have_length, log_event.
  by destruct (Records event) as [[records|len_msg index_msg|msg]|].
Qed.

(** The [try] block completes only for an event that got past the
    statements before it. *)
Lemma handle_event_length {w : World} {event : LambdaEvent}
    {outcome : HandlerResponse + Transcription} :
  completion_of (handle_event w event) = Returns outcome ->
  records_have_length event = true.
Proof.
  unfold handle_event, records_have_length.
  destruct (getenv w "TRANSCRIBE_S3_BUCKET") as [[|c b]|]; try done.
  intros (self & _ & H)%bind_inv.
  apply bind_inv in H as (record & H & _).
  by destruct (Records event) as [[records|len_msg index_msg|msg]|].
Qed.

Lemma lambda_handler_throws (w : World) (event : LambdaEvent) (f : failure) :
  records_have_length event = true ->
  completion_of (handle_event w event) = Throws f ->
  lambda_handler w event
  = (Returns (error_response f), calls_of (handle_event w event)).
Proof.
  intros Hlen H. unfold lambda_handler.
  by rewrite (log_event_ok event Hlen), (bind_throws _ _ f H).
Qed.

Lemma lambda_handler_early (w : World) (event : LambdaEvent)
    (response : HandlerResponse) :
  completion_of (handle_event w event) = Returns (inl response) ->
  lambda_handler w event = (Returns response, calls_of (handle_event w event)).
Proof.
  intros H. unfold lambda_handler.
  rewrite (log_event_ok event (handle_event_length H)).
  rewrite (bind_returns _ _ _ H). simpl.
  by rewrite app_nil_r.
Qed.

Lemma lambda_handler_result (w : World) (event : LambdaEvent)
    (result : Transcription) :
  completion_of (handle_event w event) = Returns (inr result) ->
  lambda_handler w event
  = (Returns
       match completion_of (save_result w event result) with
       | Returns saved => {| statusCode := 200; body := BodyResult saved |}
       | Throws f => error_response f
       end,
     calls_of (handle_event w event) ++ calls_of (save_result w event result)).
Proof.
  intros H. unfold lambda_handler.
  rewrite (log_event_ok event (handle_event_length H)).
  rewrite (bind_returns _ _ _ H).
  cbv beta iota.
  destruct (completion_of (save_result w event result)) as [saved|f] eqn:Hs.
  - rewrite (bind_returns _ _ _ Hs). simpl. by rewrite app_nil_r.
  - by rewrite (bind_throws _ _ _ Hs).
Qed.

Lemma handle_event_early (w : World) (event : LambdaEvent)
    (response : HandlerResponse) :
  completion_of (handle_event w event) = Returns (inl response) ->
  statusCode response = 400%Z /\ exists msg, body response = BodyError msg.
Proof.
  unfold handle_event.
  destruct (getenv w "TRANSCRIBE_S3_BUCKET") as [[|c b]|]; try done.
  intros (self & _ & H)%bind_inv.
  apply bind_inv in H as ([record|] & _ & H).
  - apply bind_inv in H as (entity & _ & H).
    apply bind_inv in H as (bucket_obj & _ & H).
    apply bind_inv in H as (bucket & _ & H).
    apply bind_inv in H as (object_obj & _ & H).
    apply bind_inv in H as (k & _ & H).
    destruct (is_mp3 k); simpl negb in H; cbv iota in H.
    + by apply bind_inv in H as (r & _ & [=]).
    + injection H as <-. split; [done | by eexists].
  - destruct (ev_file_path event) as [[|c' p]|]; try done.
    by apply bind_inv in H as (r & _ & [=]).
Qed.

Lemma error_response_status (f : failure) :
  (statusCode (error_response f) = 400 \/ statusCode (error_response f) = 404
   \/ statusCode (error_response f) = 500)%Z
  /\ exists msg, body (error_response f) = BodyError msg.
Proof.
  destruct f as [[k|msg|msg|msg|msg]|msg|msg|msg]; simpl; split; eauto.
Qed.

(** X22. On an event that is a JSON object, [lambda_handler] raises only in
    the statements before its [try] block: when [Records] has no length
    (null, a number, a boolean) it raises the [TypeError] of [len] and calls
    nothing.  Every other event it answers, in every world, with status 200
    and the transcription as body, or with status 400, 404 or 500 and an
    error message as body. *)
Theorem lambda_handler_status (w : World) (event : LambdaEvent) :
  match Records event with
  | Some (NoLength len_msg _) =>
      lambda_handler w event = (Throws (Known (TypeError len_msg)), [])
  | _ =>
      exists response,
        (lambda_handler w event).1 = Returns response
        /\ ((statusCode response = 200%Z
             /\ exists result, body response = BodyResult result)
            \/ ((statusCode response = 400 \/ statusCode response = 404
                 \/ statusCode response = 500)%Z
                /\ exists msg, body response = BodyError msg))
  end.
Proof.
  assert (records_have_length event = true ->
          exists response,
            (lambda_handler w event).1 = Returns response
            /\ ((statusCode response = 200%Z
                 /\ exists result, body response = BodyResult result)
                \/ ((statusCode response = 400 \/ statusCode response = 404
                     \/ statusCode response = 500)%Z
                    /\ exists msg, body response = BodyError msg))) as Hanswer.
  { intros Hlen.
    destruct (completion_of (handle_event w event)) as [[response|result]|f] eqn:H.
    - rewrite (lambda_handler_early w event response H). simpl.
      exists response. split; [done|].
      destruct (handle_event_early w event response H) as [-> Hbody].
      right. split; [by left | done].
    - rewrite (lambda_handler_result w event result H). simpl.
      eexists. split; [done|].
      destruct (completion_of (save_result w event result)) as [saved|f].
      + left. split; [done | by eexists].
      + right. apply error_response_status.
    - rewrite (lambda_handler_throws w event f Hlen H). simpl.
      eexists. split; [done|]. right. apply error_response_status. }
  unfold records_have_length in Hanswer.
  destruct (Records event) as [[records|len_msg index_msg|msg]|] eqn:Hrec;
    try (by apply Hanswer).
  unfold lambda_handler, log_event. by rewrite Hrec.
Qed.

(** X23. Without a non-empty [TRANSCRIBE_S3_BUCKET] in the environment the
    handler answers 400 to every event whose [Records], if present, has a
    length, S3 notifications included, and calls nothing. *)
Theorem lambda_handler_needs_default_bucket (w : World) (event : LambdaEvent) :
  getenv w "TRANSCRIBE_S3_BUCKET" = None
  \/ getenv w "TRANSCRIBE_S3_BUCKET" = Some "" ->
  records_have_length event = true ->
  lambda_handler w event
  = (Returns
       {| statusCode := 400;
          body := BodyError "TRANSCRIBE_S3_BUCKET environment variable is required" |},
     []).
Proof.
  intros Henv Hlen.
  assert (handle_event w event
          = throw (Known (ValueError
                            "TRANSCRIBE_S3_BUCKET environment variable is required")))
    as Hev.
  { unfold handle_event. by destruct Henv as [-> | ->]. }
  rewrite (lambda_handler_throws w event _ Hlen (f_equal completion_of Hev)).
  by rewrite Hev.
Qed.

Lemma lambda_handler_needs_default_bucket_witness :
  lambda_handler (make_world true None completes_at_third (Returns tt))
    (s3_event "audio" "visit.mp3")
  = (Returns
       {| statusCode := 400;
          body := BodyError "TRANSCRIBE_S3_BUCKET environment variable is required" |},
     []).
Proof.
  apply (lambda_handler_needs_default_bucket
           (make_world true None completes_at_third (Returns tt))).
  - by left.
  - reflexivity.
Defined.

(** An event whose [Records] is null makes the handler raise. *)
Example lambda_handler_raises_on_null_records :
  lambda_handler calm_world
    {| Records := Some (NoLength "object of type 'NoneType' has no len()"
                                 "'NoneType' object is not subscriptable");
       ev_file_path := Some "/data/visit.mp3";
       ev_bucket := None; transcribeSettings := None;
       outputBucket := None; outputPrefix := None |}
  = (Throws (Known (TypeError "object of type 'NoneType' has no len()")), []).
Proof. reflexivity. Qed.

(** The S3 branch of the handler. *)
Lemma handle_event_s3 (w : World) (event : LambdaEvent) (default_bucket : string)
    (self : Transcriber) (record : S3EventRecord) (others : list S3EventRecord)
    (entity : S3Entity) (bucket_obj : S3Bucket) (object_obj : S3Object)
    (bucket k : string) :
  getenv w "TRANSCRIBE_S3_BUCKET" = Some default_bucket ->
  nonempty_str default_bucket = true ->
  new_transcriber w = Returns self ->
  Records event = Some (RecordList (record :: others)) ->
  eventSource record = Some "aws:s3" ->
  s3 record = Some entity ->
  s3_bucket entity = Some bucket_obj -> name bucket_obj = Some bucket ->
  s3_object entity = Some object_obj -> key object_obj = Some k ->
  handle_event w event
  = if negb (is_mp3 k) then
      Run (Returns (inl {| statusCode := 400;
                           body := BodyError ("File is not an MP3: " +:+ k) |})) []
    else
      result ← transcribe_s3_file self w bucket k (transcribeSettings event);
      mret (inr result).
Proof.
  intros Henv Hne Hnew Hrec Hsrc Hs3 Hbo Hb Hoo Hk. unfold handle_event.
  rewrite Henv. destruct default_bucket as [|c b]; [done|].
  rewrite Hnew, Hrec, Hsrc, quiet_bind.
  change (String.eqb "aws:s3" "aws:s3") with true. cbv iota.
  rewrite ret_bind, Hs3, getitem_bind, Hbo, getitem_bind, Hb, getitem_bind,
    Hoo, getitem_bind, Hk, getitem_bind.
  done.
Qed.



(** The branch of the handler for a direct invocation. *)
Lemma handle_event_direct (w : World) (event : LambdaEvent)
    (default_bucket : string) (self : Transcriber) (file_path : string) :
  getenv w "TRANSCRIBE_S3_BUCKET" = Some default_bucket ->
  nonempty_str default_bucket = true ->
  new_transcriber w = Returns self ->
  Records event = None ->
  ev_file_path event = Some file_path ->
  nonempty_str file_path = true ->
  handle_event w event
  = (result ← transcribe_file self w file_path
                (default default_bucket (ev_bucket event))
                (transcribeSettings event);
     mret (inr result)).
Proof.
  intros Henv Hne Hnew Hrec Hpath Hp. unfold handle_event.
  rewrite Henv. destruct default_bucket as [|c b]; [done|].
  rewrite Hnew, Hrec, quiet_bind, ret_bind, Hpath.
  by destruct file_path.
Qed.





Lemma transcribe_s3_file_job_fails (self : Transcriber) (w : World)
    (bucket k : string) (additional_settings : option (gmap string Setting))
    (kth : nat) (e : exn) :
  nonempty_str bucket && nonempty_str k && is_mp3 k = true ->
  start_transcription_job w
    (job_settings (_generate_job_name w (bucket +:+ "/" +:+ k))
       ("s3://" +:+ bucket +:+ "/" +:+ k) additional_settings) = Returns tt ->
  (0 <= retry_delay self)%Z ->
  kth < Z.to_nat (max_retries self) ->
  (forall n, n < kth ->
     keeps_waiting
       (get_transcription_job w (_generate_job_name w (bucket +:+ "/" +:+ k)) n)
     = true) ->
  keeps_waiting
    (get_transcription_job w (_generate_job_name w (bucket +:+ "/" +:+ k)) kth)
  = false ->
  decisive_outcome
    (get_transcription_job w (_generate_job_name w (bucket +:+ "/" +:+ k)) kth)
  = Raise e ->
  transcribe_s3_file self w bucket k additional_settings
  = Run (Throws (Known e))
        (StartTranscriptionJob
           (job_settings (_generate_job_name w (bucket +:+ "/" +:+ k))
              ("s3://" +:+ bucket +:+ "/" +:+ k) additional_settings)
         :: map Poll (rounds (retry_delay self) kth ++ [GetTranscriptionJob])).
Proof.
  intros Hvalid Hstart Hd Hk Hbefore Hat Hout.
  rewrite (transcribe_s3_file_valid self w bucket k _ Hvalid).
  rewrite (start_job_run w bucket k additional_settings Hstart).
  rewrite bind_run_returns. cbv beta.
  rewrite (wait_for_job_decisive self w _ kth Hd Hk Hbefore Hat), Hout.
  cbn [of_result]. by rewrite (bind_throws _ _ (Known e)).
Qed.



(** X28. Saving the result never turns a transcription into an error once
    the result is written to the temporary file: when the upload to the
    output bucket fails, the answer is still status 200 with the result as it
    was; when it succeeds, the result carries the output bucket and the key
    [<prefix><time>-transcript.json].  A failure to write the temporary file
    is different: the transcription is dropped and the failure reported. *)
Theorem lambda_handler_save_outcome (w : World) (event : LambdaEvent)
    (result : Transcription) (output_bucket : string) :
  completion_of (handle_event w event) = Returns (inr result) ->
  outputBucket event = Some output_bucket ->
  nonempty_str output_bucket = true ->
  let output_key := default "transcripts/" (outputPrefix event)
                    +:+ str_int (time_at_save w) +:+ "-transcript.json" in
  (forall tmp f,
     dump_result w result = Returns tmp ->
     upload_result w tmp output_bucket output_key = Throws f ->
     lambda_handler w event
     = (Returns {| statusCode := 200; body := BodyResult result |},
        calls_of (handle_event w event)
        ++ [UploadFile tmp output_bucket output_key]))
  /\ (forall tmp,
        dump_result w result = Returns tmp ->
        upload_result w tmp output_bucket output_key = Returns tt ->
        lambda_handler w event
        = (Returns {| statusCode := 200;
              body := BodyResult
                        {| processed := processed result;
                           md_bucket := md_bucket result;
                           md_key := md_key result;
                           md_file_name := md_file_name result;
                           md_file_path := md_file_path result;
                           s3_location := Some (output_bucket, output_key) |} |},
           calls_of (handle_event w event)
           ++ [UploadFile tmp output_bucket output_key]))
  /\ (forall f,
        dump_result w result = Throws f ->
        lambda_handler w event
        = (Returns (error_response f), calls_of (handle_event w event))).
Proof.
  intros Hev Hout Hne output_key.
  rewrite (lambda_handler_result w event result Hev).
  unfold save_result. rewrite Hout.
  destruct output_bucket as [|c b]; [done|]. fold output_key.
  split; [|split].
  - intros tmp f Hdump Hup. rewrite Hdump, quiet_bind. simpl.
    by rewrite Hup.
  - intros tmp Hdump Hup. rewrite Hdump, quiet_bind. simpl.
    rewrite Hup. by destruct (unlink_result w tmp).
  - intros f Hdump. rewrite Hdump. simpl. by rewrite app_nil_r.
Qed.

Lemma lambda_handler_save_outcome_witness :
  let w := make_world true (Some "audio") completes_at_third
             (Throws (ClientFailure "AccessDenied")) in
  let event := direct_event "/data/visit.mp3" (Some "out") in
  exists result,
    completion_of (handle_event w event) = Returns (inr result)
    /\ lambda_handler w event
       = (Returns {| statusCode := 200; body := BodyResult result |},
          calls_of (handle_event w event)
          ++ [UploadFile "/tmp/tmp2.json" "out"
                ("transcripts/" +:+ str_int 1700000100 +:+ "-transcript.json")]).
Proof.
  intros w event. eexists. split; [reflexivity|].
  eapply (lambda_handler_save_outcome w event _ "out");
    reflexivity.
Defined.
